(** * GitAccountSwitcher icon scripts: a shallow embedding

    The repository's two icon scripts, [generate_icon.py] and
    [process_ai_icon.py], are embedded as programs of a small state-and-exception
    monad over a store of Pillow images.  Python floats are IEEE binary64
    numbers (Rocq's primitive floats), Python integers are [Z], and the
    objects that the scripts allocate and mutate (images, bands, masks) live in
    the store and are named by references, so that in-place updates such as
    [putpixel] and [putalpha] behave as they do in Python. *)

From Stdlib Require Import ZArith Floats Uint63 Lia List.
From stdpp Require Import base tactics option list list_numbers.

Set Warnings "-inexact-float".
Local Open Scope Z_scope.

(** ** Python numbers *)

Module Py.

(** [float(z)] for an integer: exact for [|z| < 2^53], which covers every
    pixel dimension and every literal of the scripts. *)
Definition float_of_int (z : Z) : float :=
  if z <? 0 then PrimFloat.opp (PrimFloat.of_uint63 (Uint63.of_Z (- z)))
  else PrimFloat.of_uint63 (Uint63.of_Z z).

(** [int(f)] for a float: truncation toward zero.  (On an infinity or a NaN
    Python raises; the scripts only truncate finite products, and the
    model returns 0 there.) *)
Definition int (f : float) : Z :=
  match Prim2SF f with
  | S754_finite s m e =>
      let v := if 0 <=? e then Z.pos m * 2 ^ e else Z.pos m / 2 ^ (- e) in
      if s then - v else v
  | _ => 0
  end.

(** [round(f)] with one argument: the nearest integer, ties to even.  The
    scripts never call it; it is the rounding the specification names. *)
Definition round (f : float) : Z :=
  match Prim2SF f with
  | S754_finite s m e =>
      let v :=
        if 0 <=? e then Z.pos m * 2 ^ e
        else
          let d := 2 ^ (- e) in
          let q := Z.pos m / d in
          let r := Z.pos m mod d in
          if 2 * r <? d then q
          else if d <? 2 * r then q + 1
          else if Z.even q then q else q + 1 in
      if s then - v else v
  | _ => 0
  end.

(** A number handed to a drawing call: the scripts pass both integers and
    floats as coordinates. *)
Inductive num := Int (z : Z) | Float (f : float).

(** [range(lo, hi)] *)
Definition range (lo hi : Z) : list Z := seqZ lo (hi - lo).

(** [enumerate(l)] *)
Definition enumerate {A} (l : list A) : list (Z * A) :=
  imap (fun i a => (Z.of_nat i, a)) l.

Inductive exn := ValueError | IndexError | TypeError | ReferenceError.

Inductive res (A : Type) := Ok (a : A) | Raise (e : exn).
Arguments Ok {A} a.
Arguments Raise {A} e.

End Py.
Export Py.

(** ** Images and the object store *)

Inductive Mode := L | LA | RGB | RGBA.

Definition color (m : Mode) : Type :=
  match m with
  | L => Z
  | LA => (Z * Z)%type
  | RGB => (Z * Z * Z)%type
  | RGBA => (Z * Z * Z * Z)%type
  end.

(** A Pillow image: its mode, its size [(width, height)] and its pixels in
    row-major order. *)
Inductive Image :=
| ImageL (size : Z * Z) (data : list Z)
| ImageLA (size : Z * Z) (data : list (Z * Z))
| ImageRGB (size : Z * Z) (data : list (Z * Z * Z))
| ImageRGBA (size : Z * Z) (data : list (Z * Z * Z * Z)).

Definition im_mode (im : Image) : Mode :=
  match im with
  | ImageL _ _ => L | ImageLA _ _ => LA | ImageRGB _ _ => RGB | ImageRGBA _ _ => RGBA
  end.

Definition im_size (im : Image) : Z * Z :=
  match im with ImageL s _ | ImageLA s _ | ImageRGB s _ | ImageRGBA s _ => s end.

(** The images a program has created, in allocation order; a reference is a
    position in this list. *)
Abbreviation store := (list Image) (only parsing).
Abbreviation ref := nat (only parsing).

(** A statement: it runs in a store and either returns or raises, and the
    store it leaves behind is kept in both cases. *)
Definition M (A : Type) : Type := store -> res A * store.

#[global] Instance M_ret : MRet M := fun A a s => (Ok a, s).
#[global] Instance M_bind : MBind M := fun A B f c s =>
  match c s with
  | (Ok a, s') => f a s'
  | (Raise e, s') => (Raise e, s')
  end.

Definition raise {A} (e : exn) : M A := fun s => (Raise e, s).

Definition alloc (im : Image) : M ref := fun s => (Ok (length s), s ++ [im]).

(** Reading an object.  References come from allocation only, so no run of
    the scripts reads a reference that names nothing. *)
Definition load (r : ref) : M Image := fun s =>
  match s !! r with
  | Some im => (Ok im, s)
  | None => (Raise ReferenceError, s)
  end.

Definition save (r : ref) (im : Image) : M unit := fun s => (Ok tt, <[r := im]> s).

(** [for x in l: body x] *)
Fixpoint for_ {A} (l : list A) (body : A -> M unit) : M unit :=
  match l with
  | [] => mret tt
  | x :: l' => body x ;; for_ l' body
  end.

(** Position of pixel [(x, y)] in the row-major data of an image of the given
    size, when the coordinate lies inside it. *)
Definition offset (size : Z * Z) (xy : Z * Z) : option nat :=
  let '(w, h) := size in
  let '(x, y) := xy in
  if (0 <=? x) && (x <? w) && (0 <=? y) && (y <? h)
  then Some (Z.to_nat (y * w + x)) else None.

(** Coordinate of the [i]-th pixel of an image of width [w]. *)
Definition coords (w : Z) (i : nat) : Z * Z := (Z.of_nat i mod w, Z.of_nat i / w).

(** A solid, non-antialiased fill: every pixel in [region] takes the ink, the
    others keep their value. *)
Definition paint {A} (w : Z) (region : Z * Z -> bool) (ink : A) (data : list A) : list A :=
  imap (fun i v => if region (coords w i) then ink else v) data.

(** ** The parts of Pillow the scripts call *)

Module PIL.

(** [Image.new(mode, size, color)]: Pillow refuses a negative side with
    [ValueError]; a side of 0 is allowed and gives an image without pixels. *)
Definition blank (m : Mode) (size : Z * Z) : color m -> Image :=
  let n := Z.to_nat (size.1 * size.2) in
  match m with
  | L => fun c => ImageL size (replicate n c)
  | LA => fun c => ImageLA size (replicate n c)
  | RGB => fun c => ImageRGB size (replicate n c)
  | RGBA => fun c => ImageRGBA size (replicate n c)
  end.

Definition new (m : Mode) (size : Z * Z) (c : color m) : M ref :=
  if (size.1 <? 0) || (size.2 <? 0) then raise ValueError
  else alloc (blank m size c).

(** [im.getpixel(xy)] on a single-band image; a coordinate outside the image
    raises [IndexError].  The scripts read coordinates from [range(size)]
    only, and only from single-band images.  (On a multi-band image the result
    is a tuple, which their arithmetic cannot consume.) *)
Definition getpixel (r : ref) (xy : Z * Z) : M Z :=
  im ← load r;
  match im with
  | ImageL size data =>
      match offset size xy ≫= (data !!.) with
      | Some v => mret v
      | None => raise IndexError
      end
  | _ => raise TypeError
  end.

(** [im.putpixel(xy, value)] on a single-band image, in place. *)
Definition putpixel (r : ref) (xy : Z * Z) (v : Z) : M unit :=
  im ← load r;
  match im with
  | ImageL size data =>
      match offset size xy with
      | Some i =>
          if decide (i < length data)%nat then save r (ImageL size (<[i := v]> data))
          else raise IndexError
      | None => raise IndexError
      end
  | _ => raise TypeError
  end.

(** [im.split()]: one new single-band image per band. *)
Definition bands (im : Image) : list Image :=
  match im with
  | ImageL size data => [ImageL size data]
  | ImageLA size data => [ImageL size (data.*1); ImageL size (data.*2)]
  | ImageRGB size data =>
      [ImageL size (data.*1.*1); ImageL size (data.*1.*2); ImageL size (data.*2)]
  | ImageRGBA size data =>
      [ImageL size (data.*1.*1.*1); ImageL size (data.*1.*1.*2);
       ImageL size (data.*1.*2); ImageL size (data.*2)]
  end.

Fixpoint alloc_all (ims : list Image) : M (list ref) :=
  match ims with
  | [] => mret []
  | im :: ims' => r ← alloc im; rs ← alloc_all ims'; mret (r :: rs)
  end.

Definition split (r : ref) : M (list ref) :=
  im ← load r; alloc_all (bands im).

(** [im.putalpha(alpha)] with an image argument, in place.  The alpha image
    must be single-band and of the same size; an image without an alpha
    band gains one (L becomes LA, RGB becomes RGBA). *)
Definition with_alpha (im : Image) (adata : list Z) : Image :=
  let pair {C} := zip_with (fun (c : C) (a : Z) => (c, a)) in
  match im with
  | ImageL size data => ImageLA size (pair data adata)
  | ImageLA size data => ImageLA size (pair (data.*1) adata)
  | ImageRGB size data => ImageRGBA size (pair data adata)
  | ImageRGBA size data => ImageRGBA size (pair (data.*1) adata)
  end.

Definition putalpha (r : ref) (alpha : ref) : M unit :=
  im ← load r;
  al ← load alpha;
  match al with
  | ImageL asize adata =>
      if decide (asize = im_size im) then save r (with_alpha im adata)
      else raise ValueError
  | _ => raise ValueError
  end.

(** [im.convert('RGBA')]: a new image. *)
Definition to_rgba (im : Image) : list (Z * Z * Z * Z) :=
  match im with
  | ImageL _ data => (fun v => (v, v, v, 255)) <$> data
  | ImageLA _ data => (fun c => (c.1, c.1, c.1, c.2)) <$> data
  | ImageRGB _ data => (fun c => (c, 255)) <$> data
  | ImageRGBA _ data => data
  end.

Definition convert_RGBA (r : ref) : M ref :=
  im ← load r; alloc (ImageRGBA (im_size im) (to_rgba im)).

(** [im.getdata()] of an RGBA image, as the list of its pixel tuples.  (The
    scripts read the data of a freshly converted RGBA image only.) *)
Definition getdata (r : ref) : M (list (Z * Z * Z * Z)) :=
  im ← load r;
  match im with
  | ImageRGBA _ data => mret data
  | _ => raise TypeError
  end.

(** [im.putdata(seq)] on an RGBA image, in place: the leading pixels are
    overwritten by the sequence. *)
Definition putdata (r : ref) (new_data : list (Z * Z * Z * Z)) : M unit :=
  im ← load r;
  match im with
  | ImageRGBA size data =>
      if decide (length new_data ≤ length data)%nat
      then save r (ImageRGBA size (new_data ++ drop (length new_data) data))
      else raise TypeError
  | _ => raise TypeError
  end.

End PIL.

(** [ImageDraw]: shapes are filled solid.  Which pixels a shape covers is the
    business of Pillow's rasteriser, so the three rasterisers that the scripts
    use are parameters of the development. *)

Class RoundedRectangle :=
  rounded_rectangle_region : Z * Z * Z * Z -> Z -> Z * Z -> bool.

Class Shapes := {
  ellipse_region : list num -> Z * Z -> bool;
  polygon_region : list (num * num) -> Z * Z -> bool
}.

Module ImageDraw.

(** [ImageDraw.Draw(im)]: a drawing handle on [im]; it aliases the image. *)
Definition Draw (im : ref) : M ref := mret im.

Definition fill_L (region : Z * Z -> bool) (ink : Z) (draw : ref) : M unit :=
  im ← load draw;
  match im with
  | ImageL size data => save draw (ImageL size (paint size.1 region ink data))
  | _ => raise TypeError
  end.

Definition fill_RGBA (region : Z * Z -> bool) (ink : Z * Z * Z * Z) (draw : ref)
  : M unit :=
  im ← load draw;
  match im with
  | ImageRGBA size data => save draw (ImageRGBA size (paint size.1 region ink data))
  | _ => raise TypeError
  end.

(** [draw.rounded_rectangle(xy, radius=radius, fill=fill)] on a mask.  Pillow
    refuses a box whose second corner lies before its first with
    [ValueError]; nothing is drawn then. *)
Definition rounded_rectangle `{RR : RoundedRectangle}
    (draw : ref) (xy : Z * Z * Z * Z) (radius : Z) (fill : Z) : M unit :=
  let '(x0, y0, x1, y1) := xy in
  if (x1 <? x0) || (y1 <? y0) then raise ValueError
  else fill_L (rounded_rectangle_region (x0, y0, x1, y1) radius) fill draw.

(** [draw.ellipse(xy, fill=fill)] on an RGBA canvas *)
Definition ellipse `{SH : Shapes} (draw : ref) (xy : list num) (fill : Z * Z * Z * Z)
  : M unit :=
  fill_RGBA (ellipse_region xy) fill draw.

(** [draw.polygon(xy, fill=fill)] on an RGBA canvas *)
Definition polygon `{SH : Shapes} (draw : ref) (xy : list (num * num))
    (fill : Z * Z * Z * Z) : M unit :=
  fill_RGBA (polygon_region xy) fill draw.

End ImageDraw.

(** ** process_ai_icon.py *)

Module process_ai_icon.
Section process_ai_icon.
Context `{RR : RoundedRectangle}.

(** [make_transparent(img, tolerance=30)], lines 10-25. *)
Definition make_transparent (img : ref) (tolerance : Z) : M ref :=
  img ← PIL.convert_RGBA img;
  data ← PIL.getdata img;
  let new_data :=
    foldl (fun new_data '(r, g, b, a) =>
             if (255 - tolerance <? r) && (255 - tolerance <? g)
                && (255 - tolerance <? b)
             then new_data ++ [(255, 255, 255, 0)]
             else new_data ++ [(r, g, b, a)]) [] data in
  PIL.putdata img new_data;;
  mret img.

(** [corner_radius], line 35. *)
Definition corner_radius (size : Z) : Z :=
  Py.int (float_of_int size * 0.2237)%float.

(** [apply_macos_rounding(img, size)], lines 27-49. *)
Definition apply_macos_rounding (img : ref) (size : Z) : M ref :=
  mask ← PIL.new L (size, size) 0;
  mask_draw ← ImageDraw.Draw mask;
  let corner_radius := corner_radius size in
  ImageDraw.rounded_rectangle mask_draw (0, 0, size - 1, size - 1) corner_radius 255;;
  bands ← PIL.split img;
  match bands with
  | [r; g; b; a] =>
      new_alpha ← PIL.new L (size, size) 0;
      for_ (range 0 size) (fun y =>
        for_ (range 0 size) (fun x =>
          orig_alpha ← PIL.getpixel a (x, y);
          mask_alpha ← PIL.getpixel mask (x, y);
          PIL.putpixel new_alpha (x, y) (Z.min orig_alpha mask_alpha)));;
      PIL.putalpha img new_alpha;;
      mret img
  | _ => raise ValueError
  end.

End process_ai_icon.
End process_ai_icon.

(** ** generate_icon.py *)

(** The three functions of Python's [math] module that the renderer calls;
    they are the C library's, and stay parameters. *)
Class Libm := {
  math_radians : float -> float;
  math_cos : float -> float;
  math_sin : float -> float
}.

#[global] Coercion Int : Z >-> num.
#[global] Coercion Float : float >-> num.

Module generate_icon.
Section generate_icon.
Context `{RR : RoundedRectangle} `{SH : Shapes} `{LM : Libm}.

(** GitHub colors, lines 23-25 and 68. *)
Definition github_dark : Z * Z * Z * Z := (36, 41, 47, 255).
Definition github_green : Z * Z * Z * Z := (46, 160, 67, 255).
Definition github_blue : Z * Z * Z * Z := (47, 129, 247, 255).
Definition white : Z * Z * Z * Z := (255, 255, 255, 255).

(** The gradient of the green arc, lines 135-138, and of the blue arc,
    lines 149-152: the blend parameter of a stamp and its fill. *)
Definition green_t (angle : Z) : float := (float_of_int (angle + 70) / 100)%float.

Definition green_fill (t : float) : Z * Z * Z * Z :=
  let r := Py.int (46 - 10 * t)%float in
  let g := Py.int (160 + 20 * (1 - t))%float in
  let b := Py.int (67 + 30 * (1 - t))%float in
  (r, g, b, 255).

Definition blue_t (angle : Z) : float := (float_of_int (angle - 110) / 100)%float.

Definition blue_fill (t : float) : Z * Z * Z * Z :=
  let r := Py.int (47 + 20 * (1 - t))%float in
  let g := Py.int (129 + 30 * (1 - t))%float in
  let b := Py.int (247 - 20 * t)%float in
  (r, g, b, 255).

(** The angles at which the two arcs are stamped, lines 129 and 144. *)
Definition green_angles : list Z := range (-70) 30.
Definition blue_angles : list Z := range 110 210.

(** An arrowhead, lines 161-172 and 176-187: the triangle at the end of an
    arc, for the arc's ending angle in degrees. *)
Definition arrowhead (cx cy arc_radius arrow_size : Z) (degrees : Z)
  : list (num * num) :=
  let angle1 := math_radians (float_of_int degrees) in
  let ax1 := (float_of_int cx + float_of_int arc_radius * math_cos angle1)%float in
  let ay1 := (float_of_int cy + float_of_int arc_radius * math_sin angle1)%float in
  let tip_angle1 := math_radians (float_of_int (degrees + 90)) in
  foldl (fun (points1 : list (num * num)) '(i, offset) =>
           let a := (tip_angle1 + math_radians (float_of_int offset))%float in
           let dist := if decide (i = 0) then float_of_int arrow_size
                       else (float_of_int arrow_size * 0.55)%float in
           let px := (ax1 + dist * math_cos a)%float in
           let py := (ay1 + dist * math_sin a)%float in
           points1 ++ [(Float px, Float py)])
        [] (enumerate [0; 135; 225]).

(** [create_icon(size)], lines 12-190. *)
Definition create_icon (size : Z) : M ref :=
  img ← PIL.new RGBA (size, size) (0, 0, 0, 0);
  draw ← ImageDraw.Draw img;

  let cx := size / 2 in
  let cy := size / 2 in
  let scale := (float_of_int size / 1024)%float in

  (* Step 1: the octocat silhouette *)
  let head_radius := Py.int (140 * scale) in
  let head_cx := cx in
  let head_cy := cy - Py.int (10 * scale) in
  ImageDraw.ellipse draw
    [Int (head_cx - head_radius); Int (head_cy - head_radius);
     Int (head_cx + head_radius); Int (head_cy + head_radius)] github_dark;;

  let ear_height := Py.int (50 * scale) in
  let ear_width := Py.int (45 * scale) in
  let left_ear : list (num * num) :=
    [(Int (head_cx - head_radius + Py.int (25 * scale)),
      Int (head_cy - head_radius + Py.int (35 * scale)));
     (Int (head_cx - head_radius + Py.int (50 * scale)),
      Int (head_cy - head_radius - ear_height));
     (Int (head_cx - head_radius + Py.int (80 * scale)),
      Int (head_cy - head_radius + Py.int (25 * scale)))] in
  ImageDraw.polygon draw left_ear github_dark;;
  let right_ear : list (num * num) :=
    [(Int (head_cx + head_radius - Py.int (25 * scale)),
      Int (head_cy - head_radius + Py.int (35 * scale)));
     (Int (head_cx + head_radius - Py.int (50 * scale)),
      Int (head_cy - head_radius - ear_height));
     (Int (head_cx + head_radius - Py.int (80 * scale)),
      Int (head_cy - head_radius + Py.int (25 * scale)))] in
  ImageDraw.polygon draw right_ear github_dark;;

  let body_w := Py.int (100 * scale) in
  let body_h := Py.int (70 * scale) in
  let body_top := head_cy + head_radius - Py.int (20 * scale) in
  ImageDraw.ellipse draw
    [Int (head_cx - body_w); Int body_top;
     Int (head_cx + body_w); Int (body_top + body_h * 2)] github_dark;;

  (* Step 2: the face *)
  let eye_radius := Py.int (28 * scale) in
  let eye_y := head_cy + Py.int (10 * scale) in
  let eye_spacing := Py.int (60 * scale) in
  ImageDraw.ellipse draw
    [Int (head_cx - eye_spacing - eye_radius); Int (eye_y - eye_radius);
     Int (head_cx - eye_spacing + eye_radius); Int (eye_y + eye_radius)] white;;
  ImageDraw.ellipse draw
    [Int (head_cx + eye_spacing - eye_radius); Int (eye_y - eye_radius);
     Int (head_cx + eye_spacing + eye_radius); Int (eye_y + eye_radius)] white;;

  let pupil_radius := Py.int (10 * scale) in
  let pupil_offset_x := Py.int (5 * scale) in
  let pupil_offset_y := Py.int (3 * scale) in
  ImageDraw.ellipse draw
    [Int (head_cx - eye_spacing + pupil_offset_x - pupil_radius);
     Int (eye_y + pupil_offset_y - pupil_radius);
     Int (head_cx - eye_spacing + pupil_offset_x + pupil_radius);
     Int (eye_y + pupil_offset_y + pupil_radius)] github_dark;;
  ImageDraw.ellipse draw
    [Int (head_cx + eye_spacing + pupil_offset_x - pupil_radius);
     Int (eye_y + pupil_offset_y - pupil_radius);
     Int (head_cx + eye_spacing + pupil_offset_x + pupil_radius);
     Int (eye_y + pupil_offset_y + pupil_radius)] github_dark;;

  let highlight_r := Py.int (6 * scale) in
  ImageDraw.ellipse draw
    [Int (head_cx - eye_spacing - Py.int (8 * scale) - highlight_r);
     Int (eye_y - Py.int (8 * scale) - highlight_r);
     Int (head_cx - eye_spacing - Py.int (8 * scale) + highlight_r);
     Int (eye_y - Py.int (8 * scale) + highlight_r)] white;;
  ImageDraw.ellipse draw
    [Int (head_cx + eye_spacing - Py.int (8 * scale) - highlight_r);
     Int (eye_y - Py.int (8 * scale) - highlight_r);
     Int (head_cx + eye_spacing - Py.int (8 * scale) + highlight_r);
     Int (eye_y - Py.int (8 * scale) + highlight_r)] white;;

  (* Step 3: the switching arrows *)
  let arc_radius := Py.int (220 * scale) in
  let arc_width := Py.int (26 * scale) in

  for_ green_angles (fun angle =>
    let rad := math_radians (float_of_int angle) in
    let x := (float_of_int cx + float_of_int arc_radius * math_cos rad)%float in
    let y := (float_of_int cy + float_of_int arc_radius * math_sin rad)%float in
    let t := green_t angle in
    let w := float_of_int (arc_width / 2) in
    ImageDraw.ellipse draw
      [Float (x - w); Float (y - w); Float (x + w); Float (y + w)] (green_fill t));;

  for_ blue_angles (fun angle =>
    let rad := math_radians (float_of_int angle) in
    let x := (float_of_int cx + float_of_int arc_radius * math_cos rad)%float in
    let y := (float_of_int cy + float_of_int arc_radius * math_sin rad)%float in
    let t := blue_t angle in
    let w := float_of_int (arc_width / 2) in
    ImageDraw.ellipse draw
      [Float (x - w); Float (y - w); Float (x + w); Float (y + w)] (blue_fill t));;

  (* Arrowheads *)
  let arrow_size := Py.int (45 * scale) in
  let points1 := arrowhead cx cy arc_radius arrow_size 30 in
  ImageDraw.polygon draw points1 github_green;;
  let points2 := arrowhead cx cy arc_radius arrow_size 210 in
  ImageDraw.polygon draw points2 github_blue;;

  mret img.

(** [corner_radius], line 200. *)
Definition corner_radius (size : Z) : Z :=
  Py.int (float_of_int size * 0.2237)%float.

(** [apply_macos_rounding(img, size)], lines 193-215. *)
Definition apply_macos_rounding (img : ref) (size : Z) : M ref :=
  mask ← PIL.new L (size, size) 0;
  mask_draw ← ImageDraw.Draw mask;
  let corner_radius := corner_radius size in
  ImageDraw.rounded_rectangle mask_draw (0, 0, size - 1, size - 1) corner_radius 255;;
  bands ← PIL.split img;
  match bands with
  | [r; g; b; a] =>
      new_alpha ← PIL.new L (size, size) 0;
      for_ (range 0 size) (fun y =>
        for_ (range 0 size) (fun x =>
          orig_alpha ← PIL.getpixel a (x, y);
          mask_alpha ← PIL.getpixel mask (x, y);
          PIL.putpixel new_alpha (x, y) (Z.min orig_alpha mask_alpha)));;
      PIL.putalpha img new_alpha;;
      mret img
  | _ => raise ValueError
  end.

End generate_icon.
End generate_icon.

(** ** The rounded rectangle of the specification *)

(** Modelled from the spec: Pillow's rounded-rectangle rasteriser is not part
    of the repository.  Section 4.2 gives the fill rule: a pixel of the box is
    inside when it lies in the central cross (the box shrunk by the radius
    along one axis) or within [radius] of one of the four corner-circle
    centres, which are inset by [radius] from each edge. *)
Definition spec_rounded_rectangle : RoundedRectangle :=
  fun '(x0, y0, x1, y1) radius '(x, y) =>
    let in_box := (x0 <=? x) && (x <=? x1) && (y0 <=? y) && (y <=? y1) in
    let in_cross :=
      ((x0 + radius <=? x) && (x <=? x1 - radius))
      || ((y0 + radius <=? y) && (y <=? y1 - radius)) in
    let in_disc (cx cy : Z) :=
      (x - cx) * (x - cx) + (y - cy) * (y - cy) <=? radius * radius in
    in_box
    && (in_cross
        || in_disc (x0 + radius) (y0 + radius) || in_disc (x1 - radius) (y0 + radius)
        || in_disc (x0 + radius) (y1 - radius) || in_disc (x1 - radius) (y1 - radius)).

(** Rasterisers and trigonometry for running the renderer on examples: a
    filled bounding box for every shape, and constant stand-ins for the C
    library. *)
Definition num_floor (n : num) : Z :=
  match n with Int z => z | Float f => Py.int f end.

Definition box_shapes : Shapes := {|
  ellipse_region xy '(x, y) :=
    match xy with
    | [x0; y0; x1; y1] =>
        (num_floor x0 <=? x) && (x <=? num_floor x1)
        && (num_floor y0 <=? y) && (y <=? num_floor y1)
    | _ => false
    end;
  polygon_region pts '(x, y) :=
    existsb (fun p => (num_floor p.1 =? x) && (num_floor p.2 =? y)) pts
|}.

Definition flat_libm : Libm := {|
  math_radians f := (f * 0.017453292519943295)%float;
  math_cos _ := 1%float;
  math_sin _ := 0%float
|}.

(** ** A size that is not an integer *)

(** Python does not type [size].  Both functions hand it to [Image.new] in
    their first statement, before they compute anything from it.  With a
    float for a side, Pillow first compares the side with 0, raising
    [ValueError] when it is negative, and then passes it to its C core, which
    takes integers only and raises [TypeError]. *)
Definition Image_new_float {A} (side : float) : M A :=
  if (side <? 0)%float then raise ValueError else raise TypeError.

Module untyped.

(** [create_icon(size)] for any number. *)
Definition create_icon `{SH : Shapes} `{LM : Libm} (size : num) : M ref :=
  match size with
  | Int z => generate_icon.create_icon z
  | Float x => Image_new_float x
  end.

(** [apply_macos_rounding(img, size)] for any number. *)
Definition apply_macos_rounding `{RR : RoundedRectangle} (img : ref) (size : num)
  : M ref :=
  match size with
  | Int z => generate_icon.apply_macos_rounding img z
  | Float x => Image_new_float x
  end.

End untyped.

(** * Verification *)

(** ** Vocabulary of the properties *)

(** An 8-bit channel value. *)
Definition byte (v : Z) : bool := (0 <=? v) && (v <=? 255).

(** An RGBA canvas of the given side: square, with one 8-bit RGBA tuple per
    pixel. *)
Definition is_canvas (size : Z) (im : Image) : bool :=
  match im with
  | ImageRGBA sz px =>
      bool_decide (sz = (size, size))
      && bool_decide (length px = Z.to_nat (size * size))
      && forallb (fun '(r, g, b, a) => byte r && byte g && byte b && byte a) px
  | _ => false
  end.

(** The pixel of the RGBA image behind a reference, as [getpixel] reads it. *)
Definition pixel_at (s : store) (img : ref) (xy : Z * Z) : option (Z * Z * Z * Z) :=
  match s !! img with
  | Some (ImageRGBA size data) => offset size xy ≫= (data !!.)
  | _ => None
  end.

(** The pixel of the single-band image behind a reference. *)
Definition band_at (s : store) (img : ref) (xy : Z * Z) : option Z :=
  match s !! img with
  | Some (ImageL size data) => offset size xy ≫= (data !!.)
  | _ => None
  end.

(** A small store for running the masker: one 5x5 canvas, every pixel of a
    different colour and opacity.  At this size the corner radius is 1. *)
Definition example_canvas : Image :=
  ImageRGBA (5, 5) ((fun i => (10 * i, 5 * i, 255 - i, 255 - 10 * i)) <$> seqZ 0 25).

Definition example_store : store := [example_canvas].

(** The mask that [apply_macos_rounding] draws for a given size. *)
Definition mask_data `{RR : RoundedRectangle} (size : Z) : list Z :=
  paint size
    (rounded_rectangle_region (0, 0, size - 1, size - 1)
       (generate_icon.corner_radius size))
    255 (replicate (Z.to_nat (size * size)) 0).

(** The value of the mask of [apply_macos_rounding] at a pixel. *)
Definition mask_at `{RR : RoundedRectangle} (size : Z) (xy : Z * Z) : Z :=
  if rounded_rectangle_region (0, 0, size - 1, size - 1)
       (generate_icon.corner_radius size) xy
  then 255 else 0.

(** An RGBA canvas whose alpha band is clipped to a mask. *)
Definition clipped (px : list (Z * Z * Z * Z)) (mask : list Z) : list (Z * Z * Z * Z) :=
  zip_with (fun c a => (c, a)) (px.*1) (zip_with Z.min (px.*2) mask).

(** The store that one call leaves behind: the canvas is updated in place
    and six temporaries have been allocated after the existing objects. *)
Definition rounded `{RR : RoundedRectangle} (st : store) (img : ref) (size : Z) (px : list (Z * Z * Z * Z))
  : store :=
  <[img := ImageRGBA (size, size) (clipped px (mask_data size))]>
    (st ++ ImageL (size, size) (mask_data size)
        :: PIL.bands (ImageRGBA (size, size) px)
        ++ [ImageL (size, size) (zip_with Z.min (px.*2) (mask_data size))]).

(** The alpha band under construction after its first [k] pixels have been
    written: clipped values up to [k], the initial values from there on. *)
Definition progress (zs z0 : list Z) (k : nat) : list Z := take k zs ++ drop k z0.

(** [truncates n lo]: on each of the [n] sizes from [lo] on, the radius that
    the double-precision product yields is the integer part of the exact
    product [size * 2237 / 10000]. *)
Fixpoint truncates (n : nat) (size : Z) : bool :=
  match n with
  | O => true
  | S n' =>
      (generate_icon.corner_radius size =? 2237 * size / 10000)
      && truncates n' (size + 1)
  end.

(** What [make_transparent] does to one RGBA pixel. *)
Definition whiten (tolerance : Z) (p : Z * Z * Z * Z) : Z * Z * Z * Z :=
  let '(r, g, b, a) := p in
  if (255 - tolerance <? r) && (255 - tolerance <? g) && (255 - tolerance <? b)
  then (255, 255, 255, 0) else (r, g, b, a).

(** [paints c r f]: statement [c] succeeds on every store in which [r] is an
    RGBA image, and its only effect is to replace the pixels [d] of that image
    by [f size d], of the same length.  [renders] is the same for a
    statement that returns [r]. *)
Definition paints (c : M unit) (r : ref)
    (f : Z * Z -> list (Z * Z * Z * Z) -> list (Z * Z * Z * Z)) : Prop :=
  (forall size d, length (f size d) = length d)
  /\ forall (s : store) size d, s !! r = Some (ImageRGBA size d) ->
       c s = (Ok tt, <[r := ImageRGBA size (f size d)]> s).

Definition renders (c : M ref) (r : ref)
    (f : Z * Z -> list (Z * Z * Z * Z) -> list (Z * Z * Z * Z)) : Prop :=
  (forall size d, length (f size d) = length d)
  /\ forall (s : store) size d, s !! r = Some (ImageRGBA size d) ->
       c s = (Ok r, <[r := ImageRGBA size (f size d)]> s).

(** An 8-bit RGBA tuple. *)
Definition byte_rgba (p : Z * Z * Z * Z) : bool :=
  let '(r, g, b, a) := p in byte r && byte g && byte b && byte a.

(** An image as Pillow holds it: sides that are not negative, one pixel per
    position, 8-bit channels. *)
Definition valid_image (im : Image) : bool :=
  let sized {A} (size : Z * Z) (data : list A) :=
    (0 <=? size.1) && (0 <=? size.2)
    && bool_decide (length data = Z.to_nat (size.1 * size.2)) in
  match im with
  | ImageL size data => sized size data && forallb byte data
  | ImageLA size data => sized size data && forallb (fun c => byte c.1 && byte c.2) data
  | ImageRGB size data =>
      sized size data && forallb (fun c => byte c.1.1 && byte c.1.2 && byte c.2) data
  | ImageRGBA size data => sized size data && forallb byte_rgba data
  end.

(** A pixel that is either blank, as [Image.new] leaves it, or fully opaque. *)
Definition clear_or_opaque (p : Z * Z * Z * Z) : bool :=
  bool_decide (p = (0, 0, 0, 0)) || (byte_rgba p && (p.2 =? 255)).

(** A drawing function that keeps a property of the pixels. *)
Definition keeps (P : Z * Z * Z * Z -> Prop)
    (f : Z * Z -> list (Z * Z * Z * Z) -> list (Z * Z * Z * Z)) : Prop :=
  forall size d, Forall P d -> Forall P (f size d).

Definition paints_keeping (P : Z * Z * Z * Z -> Prop) (c : M unit) (r : ref) : Prop :=
  exists f, paints c r f /\ keeps P f.

Definition renders_keeping (P : Z * Z * Z * Z -> Prop) (c : M ref) (r : ref) : Prop :=
  exists f, renders c r f /\ keeps P f.

(** The state of a store in which only the object behind [r] may have
    changed, and is a single-band image of the given size. *)
Definition only_band (s0 : store) (r : ref) (size : Z * Z) (n : nat) (s : store) : Prop :=
  exists d, length d = n /\ s = <[r := ImageL size d]> s0.

(** The store in which the loops of the masker start, for an RGBA image of
    any size: the mask, the four bands and the new alpha band have been
    allocated. *)
Definition loop_store `{RR : RoundedRectangle} (st : store) (size w h : Z) (px : list (Z * Z * Z * Z)) : store :=
  st ++ [ImageL (size, size) (mask_data size);
         ImageL (w, h) (px.*1.*1.*1); ImageL (w, h) (px.*1.*1.*2);
         ImageL (w, h) (px.*1.*2); ImageL (w, h) (px.*2);
         ImageL (size, size) (replicate (Z.to_nat (size * size)) 0)].

(** One step of a gradient: from one stamp to the next no channel rises, and
    none falls by more than one. *)
Definition gentle_step (c c' : Z * Z * Z * Z) : bool :=
  let '(r, g, b, a) := c in
  let '(r', g', b', a') := c' in
  let step (v v' : Z) := (v' <=? v) && (v - 1 <=? v') in
  step r r' && step g g' && step b b' && (a =? 255) && (a' =? 255).

(** A size that the specification calls invalid: an integer that is not
    positive, or a number that is not an integer. *)
Definition invalid_size (size : num) : bool :=
  match size with
  | Int z => z <=? 0
  | Float _ => true
  end.

(** ** Examples *)

Example corner_radius_512 : generate_icon.corner_radius 512 = 114.
Proof. vm_compute. reflexivity. Qed.

Example corner_radius_1024 : generate_icon.corner_radius 1024 = 229.
Proof. vm_compute. reflexivity. Qed.

Example round_512 : Py.round (float_of_int 512 * 0.2237)%float = 115.
Proof. vm_compute. reflexivity. Qed.

(** An 8x8 canvas of one colour: masking clears the corners and nothing else
    on the first row. *)
Example rounding_8x8 :
  let st := [ImageRGBA (8, 8) (replicate 64 (1, 2, 3, 200))] in
  let run := generate_icon.apply_macos_rounding (RR := spec_rounded_rectangle) 0%nat 8 st in
  run.1 = Ok 0%nat
  /\ pixel_at run.2 0%nat (0, 0) = Some (1, 2, 3, 0)
  /\ pixel_at run.2 0%nat (1, 0) = Some (1, 2, 3, 200)
  /\ pixel_at run.2 0%nat (7, 0) = Some (1, 2, 3, 0)
  /\ pixel_at run.2 0%nat (4, 4) = Some (1, 2, 3, 200).
Proof. vm_compute. repeat split. Qed.

(** A size that does not match the canvas: too large fails in [getpixel],
    too small in [putalpha]. *)
Example rounding_size_mismatch :
  let st := [ImageRGBA (8, 8) (replicate 64 (1, 2, 3, 200))] in
  (generate_icon.apply_macos_rounding (RR := spec_rounded_rectangle) 0%nat 9 st).1
  = Raise IndexError
  /\ (generate_icon.apply_macos_rounding (RR := spec_rounded_rectangle) 0%nat 4 st).1
     = Raise ValueError.
Proof. vm_compute. repeat split. Qed.

Example make_transparent_rgb :
  process_ai_icon.make_transparent 0%nat 40
    [ImageRGB (2, 1) [(250, 250, 250); (200, 200, 200)]]
  = (Ok 1%nat,
     [ImageRGB (2, 1) [(250, 250, 250); (200, 200, 200)];
      ImageRGBA (2, 1) [(255, 255, 255, 0); (200, 200, 200, 255)]]).
Proof. reflexivity. Qed.

Example create_icon_0 :
  generate_icon.create_icon (SH := box_shapes) (LM := flat_libm) 0 []
  = (Ok 0%nat, [ImageRGBA (0, 0) []]).
Proof. vm_compute. reflexivity. Qed.

(** Sizes that are not positive, and one that is not an integer. *)
Example masker_sizes :
  (untyped.apply_macos_rounding (RR := spec_rounded_rectangle) 0%nat (Int 0)
     example_store).1 = Raise ValueError
  /\ (untyped.apply_macos_rounding (RR := spec_rounded_rectangle) 0%nat (Int (-3))
        example_store).1 = Raise ValueError
  /\ (untyped.apply_macos_rounding (RR := spec_rounded_rectangle) 0%nat (Float 1.5)
        example_store).1 = Raise TypeError
  /\ (untyped.apply_macos_rounding (RR := spec_rounded_rectangle) 0%nat (Float (-1.5))
        example_store).1 = Raise ValueError.
Proof. vm_compute. repeat split. Qed.

(** ** Running statements *)

Lemma bind_ok {A B} (c : M A) (f : A -> M B) s a s' :
  c s = (Ok a, s') -> (c ≫= f) s = f a s'.
Proof. intros Hc. unfold mbind, M_bind. by rewrite Hc. Qed.

Lemma bind_raise {A B} (c : M A) (f : A -> M B) s e s' :
  c s = (Raise e, s') -> (c ≫= f) s = (Raise e, s').
Proof. intros Hc. unfold mbind, M_bind. by rewrite Hc. Qed.

Lemma load_ok s r im : s !! r = Some im -> load r s = (Ok im, s).
Proof. intros Hr. unfold load. by rewrite Hr. Qed.

Lemma offset_inside w h x y :
  0 <= x < w -> 0 <= y < h -> offset (w, h) (x, y) = Some (Z.to_nat (y * w + x)).
Proof.
  intros Hx Hy. unfold offset.
  replace (0 <=? x) with true by (symmetry; apply Z.leb_le; lia).
  replace (x <? w) with true by (symmetry; apply Z.ltb_lt; lia).
  replace (0 <=? y) with true by (symmetry; apply Z.leb_le; lia).
  replace (y <? h) with true by (symmetry; apply Z.ltb_lt; lia).
  reflexivity.
Qed.

Lemma offset_lt w h x y :
  0 <= x < w -> 0 <= y < h -> (Z.to_nat (y * w + x) < Z.to_nat (w * h))%nat.
Proof. intros Hx Hy. apply Z2Nat.inj_lt; nia. Qed.

Lemma coords_offset w h x y :
  0 <= x < w -> 0 <= y < h -> coords w (Z.to_nat (y * w + x)) = (x, y).
Proof.
  intros Hx Hy. unfold coords. rewrite Z2Nat.id by nia.
  f_equal.
  - rewrite Z.add_comm, Z.mod_add by lia. apply Z.mod_small; lia.
  - rewrite Z.add_comm, Z.div_add by lia. rewrite Z.div_small by lia. lia.
Qed.

Lemma getpixel_ok s r size data xy i v :
  s !! r = Some (ImageL size data) -> offset size xy = Some i -> data !! i = Some v ->
  PIL.getpixel r xy s = (Ok v, s).
Proof.
  intros Hr Hxy Hv. unfold PIL.getpixel.
  rewrite (bind_ok _ _ _ _ _ (load_ok _ _ _ Hr)).
  rewrite Hxy; simpl. by rewrite Hv.
Qed.

Lemma putpixel_ok s r size data xy i v :
  s !! r = Some (ImageL size data) -> offset size xy = Some i -> (i < length data)%nat ->
  PIL.putpixel r xy v s = (Ok tt, <[r := ImageL size (<[i := v]> data)]> s).
Proof.
  intros Hr Hxy Hi. unfold PIL.putpixel.
  rewrite (bind_ok _ _ _ _ _ (load_ok _ _ _ Hr)).
  rewrite Hxy. by rewrite decide_True.
Qed.

(** ** The clipping loop *)

Lemma length_progress zs z0 k :
  length zs = length z0 -> length (progress zs z0 k) = length z0.
Proof.
  intros Hlen. unfold progress.
  rewrite length_app, length_take, length_drop. lia.
Qed.

Lemma progress_step zs z0 k v :
  length zs = length z0 -> zs !! k = Some v ->
  <[k := v]> (progress zs z0 k) = progress zs z0 (S k).
Proof.
  intros Hlen Hv. unfold progress.
  pose proof (lookup_lt_Some _ _ _ Hv) as Hk.
  destruct (lookup_lt_is_Some_2 z0 k) as [v0 Hv0]; [lia|].
  rewrite insert_app_r_alt by (rewrite length_take; lia).
  rewrite length_take_le, Nat.sub_diag by lia.
  rewrite (drop_S _ _ _ Hv0), (take_S_r _ _ _ Hv); simpl.
  by rewrite <- app_assoc.
Qed.

Lemma progress_0 zs z0 : progress zs z0 0 = z0.
Proof. reflexivity. Qed.

Lemma progress_all zs z0 k :
  length zs = length z0 -> k = length z0 -> progress zs z0 k = zs.
Proof.
  intros Hlen ->. unfold progress.
  rewrite take_ge, drop_ge by lia. apply app_nil_r.
Qed.

Lemma range_cons lo hi : lo < hi -> range lo hi = lo :: range (lo + 1) hi.
Proof.
  intros Hlt. unfold range. rewrite seqZ_cons by lia.
  f_equal. f_equal; lia.
Qed.

Lemma range_nil lo hi : hi <= lo -> range lo hi = [].
Proof. intros Hle. unfold range. apply seqZ_nil. lia. Qed.

Section clip_loop.
Variables (s0 : store) (a mask new_alpha : ref) (w h : Z) (da dm z0 : list Z).
Hypothesis new_alpha_a : new_alpha <> a.
Hypothesis new_alpha_mask : new_alpha <> mask.
Hypothesis new_alpha_lt : (new_alpha < length s0)%nat.
Hypothesis lookup_a : s0 !! a = Some (ImageL (w, h) da).
Hypothesis lookup_mask : s0 !! mask = Some (ImageL (w, h) dm).
Hypothesis length_da : length da = Z.to_nat (w * h).
Hypothesis length_dm : length dm = Z.to_nat (w * h).
Hypothesis length_z0 : length z0 = Z.to_nat (w * h).

Let zs := zip_with Z.min da dm.
Let at_ (k : Z) : store :=
  <[new_alpha := ImageL (w, h) (progress zs z0 (Z.to_nat k))]> s0.

Lemma length_zs : length zs = length z0.
Proof. subst zs. rewrite length_zip_with. lia. Qed.

(** One row: [for x in range(x0, w)] writes pixels [y*w + x0 .. y*w + w). *)
Lemma row_loop y :
  0 <= y < h ->
  forall n x0, Z.to_nat (w - x0) = n -> 0 <= x0 <= w ->
    for_ (range x0 w) (fun x =>
        orig_alpha ← PIL.getpixel a (x, y);
        mask_alpha ← PIL.getpixel mask (x, y);
        PIL.putpixel new_alpha (x, y) (Z.min orig_alpha mask_alpha))
      (at_ (y * w + x0))
    = (Ok tt, at_ (y * w + w)).
Proof.
  intros Hy n. induction n as [|n IH]; intros x0 Hn Hx0.
  - assert (x0 = w) as -> by lia. by rewrite range_nil by lia.
  - rewrite range_cons by lia. cbn [for_].
    assert (0 <= x0 < w) as Hx by lia.
    pose proof (offset_lt w h x0 y Hx Hy) as Hk.
    pose proof (offset_inside w h x0 y Hx Hy) as Hoff.
    set (k := Z.to_nat (y * w + x0)) in *.
    destruct (lookup_lt_is_Some_2 da k) as [va Hva]; [lia|].
    destruct (lookup_lt_is_Some_2 dm k) as [vm Hvm]; [lia|].
    assert (zs !! k = Some (Z.min va vm)) as Hzs.
    { subst zs. rewrite lookup_zip_with, Hva, Hvm. reflexivity. }
    assert (at_ (y * w + x0) !! a = Some (ImageL (w, h) da)) as Ha.
    { unfold at_. by rewrite list_lookup_insert_ne. }
    assert (at_ (y * w + x0) !! mask = Some (ImageL (w, h) dm)) as Hm.
    { unfold at_. by rewrite list_lookup_insert_ne. }
    assert (at_ (y * w + x0) !! new_alpha
            = Some (ImageL (w, h) (progress zs z0 k))) as Hna.
    { unfold at_. by rewrite list_lookup_insert_eq. }
    erewrite bind_ok; cycle 1.
    { erewrite bind_ok by (eapply getpixel_ok; eauto).
      erewrite bind_ok by (eapply getpixel_ok; eauto).
      eapply putpixel_ok; eauto.
      rewrite length_progress by apply length_zs. lia. }
    rewrite (progress_step _ _ _ _ length_zs Hzs).
    unfold at_ at 1. rewrite list_insert_insert_eq.
    replace (S k) with (Z.to_nat (y * w + (x0 + 1))) by (subst k; nia).
    apply IH; lia.
Qed.

(** All rows: [for y in range(y0, h)]. *)
Lemma rows_loop :
  0 <= w ->
  forall n y0, Z.to_nat (h - y0) = n -> 0 <= y0 <= h ->
    for_ (range y0 h) (fun y =>
      for_ (range 0 w) (fun x =>
        orig_alpha ← PIL.getpixel a (x, y);
        mask_alpha ← PIL.getpixel mask (x, y);
        PIL.putpixel new_alpha (x, y) (Z.min orig_alpha mask_alpha)))
      (at_ (y0 * w))
    = (Ok tt, at_ (h * w)).
Proof.
  intros Hw n. induction n as [|n IH]; intros y0 Hn Hy0.
  - assert (y0 = h) as -> by lia. by rewrite range_nil by lia.
  - rewrite range_cons by lia. cbn [for_].
    erewrite bind_ok; cycle 1.
    { replace (y0 * w) with (y0 * w + 0) by lia.
      eapply row_loop; [lia|reflexivity|lia]. }
    replace (y0 * w + w) with ((y0 + 1) * w) by lia.
    apply IH; lia.
Qed.

(** The double loop of [apply_macos_rounding] fills [new_alpha] with the
    pointwise minimum of the alpha band and the mask. *)
Lemma clip_loop :
  0 <= w -> 0 <= h ->
  s0 !! new_alpha = Some (ImageL (w, h) z0) ->
  for_ (range 0 h) (fun y =>
    for_ (range 0 w) (fun x =>
      orig_alpha ← PIL.getpixel a (x, y);
      mask_alpha ← PIL.getpixel mask (x, y);
      PIL.putpixel new_alpha (x, y) (Z.min orig_alpha mask_alpha))) s0
  = (Ok tt, <[new_alpha := ImageL (w, h) (zip_with Z.min da dm)]> s0).
Proof.
  intros Hw Hh Hna.
  assert (s0 = at_ (0 * w)) as Hs0.
  { unfold at_. simpl. by rewrite progress_0, list_insert_id. }
  rewrite Hs0 at 1. erewrite rows_loop; [|lia|reflexivity|lia].
  unfold at_. rewrite progress_all; [done|apply length_zs|].
  rewrite length_z0. f_equal. lia.
Qed.
End clip_loop.

(** ** Pillow calls that succeed *)

Lemma new_ok m size c (s : store) :
  0 <= size.1 -> 0 <= size.2 ->
  PIL.new m size c s = (Ok (length s), s ++ [PIL.blank m size c]).
Proof.
  intros Hw Hh. unfold PIL.new.
  replace (size.1 <? 0) with false by (symmetry; apply Z.ltb_ge; lia).
  replace (size.2 <? 0) with false by (symmetry; apply Z.ltb_ge; lia).
  reflexivity.
Qed.

Lemma new_negative m size c (s : store) :
  size.1 < 0 -> PIL.new m size c s = (Raise ValueError, s).
Proof.
  intros Hw. unfold PIL.new.
  replace (size.1 <? 0) with true by (symmetry; apply Z.ltb_lt; lia).
  reflexivity.
Qed.

Lemma fill_L_ok (s : store) r size data region ink :
  s !! r = Some (ImageL size data) ->
  ImageDraw.fill_L region ink r s
  = (Ok tt, <[r := ImageL size (paint size.1 region ink data)]> s).
Proof.
  intros Hr. unfold ImageDraw.fill_L.
  by rewrite (bind_ok _ _ _ _ _ (load_ok _ _ _ Hr)).
Qed.

Lemma rounded_rectangle_ok `{RR : RoundedRectangle} (s : store) r size data
    x0 y0 x1 y1 radius fill :
  s !! r = Some (ImageL size data) -> x0 <= x1 -> y0 <= y1 ->
  ImageDraw.rounded_rectangle r (x0, y0, x1, y1) radius fill s
  = (Ok tt,
     <[r := ImageL size
              (paint size.1 (rounded_rectangle_region (x0, y0, x1, y1) radius)
                 fill data)]> s).
Proof.
  intros Hr Hx Hy. unfold ImageDraw.rounded_rectangle.
  replace (x1 <? x0) with false by (symmetry; apply Z.ltb_ge; lia).
  replace (y1 <? y0) with false by (symmetry; apply Z.ltb_ge; lia).
  by apply fill_L_ok.
Qed.

Lemma rounded_rectangle_empty_box `{RR : RoundedRectangle} (s : store) r
    x0 y0 x1 y1 radius fill :
  x1 < x0 \/ y1 < y0 ->
  ImageDraw.rounded_rectangle r (x0, y0, x1, y1) radius fill s = (Raise ValueError, s).
Proof.
  intros Hbox. unfold ImageDraw.rounded_rectangle.
  destruct (x1 <? x0) eqn:Hx; [done|].
  destruct (y1 <? y0) eqn:Hy; [done|].
  apply Z.ltb_ge in Hx, Hy. lia.
Qed.

Lemma fill_RGBA_ok (s : store) r size data region ink :
  s !! r = Some (ImageRGBA size data) ->
  ImageDraw.fill_RGBA region ink r s
  = (Ok tt, <[r := ImageRGBA size (paint size.1 region ink data)]> s).
Proof.
  intros Hr. unfold ImageDraw.fill_RGBA.
  by rewrite (bind_ok _ _ _ _ _ (load_ok _ _ _ Hr)).
Qed.

Lemma alloc_all_ok ims (s : store) :
  PIL.alloc_all ims s = (Ok (seq (length s) (length ims)), s ++ ims).
Proof.
  revert s. induction ims as [|im ims IH]; intros s; simpl.
  - by rewrite app_nil_r.
  - unfold mbind, M_bind, alloc. rewrite IH.
    rewrite length_app; simpl. rewrite Nat.add_1_r, <- app_assoc. reflexivity.
Qed.

Lemma split_ok (s : store) r im :
  s !! r = Some im ->
  PIL.split r s = (Ok (seq (length s) (length (PIL.bands im))), s ++ PIL.bands im).
Proof.
  intros Hr. unfold PIL.split.
  rewrite (bind_ok _ _ _ _ _ (load_ok _ _ _ Hr)). apply alloc_all_ok.
Qed.

Lemma putalpha_ok (s : store) r alpha im adata :
  s !! r = Some im -> s !! alpha = Some (ImageL (im_size im) adata) ->
  PIL.putalpha r alpha s = (Ok tt, <[r := PIL.with_alpha im adata]> s).
Proof.
  intros Hr Ha. unfold PIL.putalpha.
  rewrite (bind_ok _ _ _ _ _ (load_ok _ _ _ Hr)).
  rewrite (bind_ok _ _ _ _ _ (load_ok _ _ _ Ha)).
  by rewrite decide_True.
Qed.

(** ** What [apply_macos_rounding] computes *)

Section apply_macos_rounding.
Context `{RR : RoundedRectangle}.

Lemma length_mask_data size : length (mask_data size) = Z.to_nat (size * size).
Proof. unfold mask_data, paint. by rewrite length_imap, length_replicate. Qed.

Lemma length_clipped px mask :
  length mask = length px -> length (clipped px mask) = length px.
Proof.
  intros Hlen. unfold clipped.
  rewrite !length_zip_with, !length_fmap. lia.
Qed.

Lemma apply_macos_rounding_run (st : store) img size px :
  0 < size ->
  st !! img = Some (ImageRGBA (size, size) px) ->
  length px = Z.to_nat (size * size) ->
  generate_icon.apply_macos_rounding img size st = (Ok img, rounded st img size px).
Proof.
  intros Hsize Himg Hlen.
  pose proof (lookup_lt_Some _ _ _ Himg) as Hlt.
  unfold generate_icon.apply_macos_rounding.
  (* mask = Image.new('L', (size, size), 0) *)
  erewrite bind_ok by (apply new_ok; simpl; lia).
  unfold ImageDraw.Draw. erewrite bind_ok by reflexivity.
  (* mask_draw.rounded_rectangle(...) *)
  erewrite bind_ok; cycle 1.
  { apply rounded_rectangle_ok; [|lia..]. simpl. rewrite lookup_app_r by lia.
    rewrite Nat.sub_diag. reflexivity. }
  rewrite insert_app_r_alt, Nat.sub_diag by lia. cbn [insert list_insert fst snd].
  fold (mask_data size).
  (* r, g, b, a = img.split() *)
  erewrite bind_ok; cycle 1.
  { eapply split_ok. rewrite lookup_app_l by lia. exact Himg. }
  cbn [PIL.bands length seq].
  (* new_alpha = Image.new('L', (size, size), 0) *)
  erewrite bind_ok by (apply new_ok; simpl; lia).
  cbn [PIL.blank fst snd].
  rewrite <- !app_assoc. cbn [app].
  rewrite !length_app. cbn [length].
  set (k := length st).
  replace (k + 1)%nat with (S k) by lia.
  replace (k + 5)%nat with (S (S (S (S (S k))))) by lia.
  (* the double loop *)
  erewrite bind_ok; cycle 1.
  { eapply (clip_loop _ (S (S (S (S k)))) k (S (S (S (S (S k))))) size size
              (px.*2) (mask_data size)).
    - lia.
    - lia.
    - rewrite length_app; simpl. lia.
    - rewrite lookup_app_r by lia.
      replace (S (S (S (S k))) - length st)%nat with 4%nat by lia. reflexivity.
    - rewrite lookup_app_r by lia.
      replace (k - length st)%nat with 0%nat by lia. reflexivity.
    - by rewrite length_fmap.
    - apply length_mask_data.
    - apply length_replicate.
    - lia.
    - lia.
    - rewrite lookup_app_r by lia.
      replace (S (S (S (S (S k)))) - length st)%nat with 5%nat by lia. reflexivity. }
  rewrite insert_app_r_alt by lia.
  replace (S (S (S (S (S k)))) - length st)%nat with 5%nat by lia.
  cbn [insert list_insert].
  (* img.putalpha(new_alpha) *)
  erewrite bind_ok; cycle 1.
  { eapply (putalpha_ok _ img (S (S (S (S (S k)))))).
    - rewrite lookup_app_l by lia. exact Himg.
    - rewrite lookup_app_r by lia.
      replace (S (S (S (S (S k)))) - length st)%nat with 5%nat by lia. reflexivity. }
  reflexivity.
Qed.

Lemma rounded_lookup_img (st : store) img size px :
  (img < length st)%nat ->
  rounded st img size px !! img
  = Some (ImageRGBA (size, size) (clipped px (mask_data size))).
Proof.
  intros Hlt. unfold rounded.
  apply list_lookup_insert_eq. rewrite length_app. lia.
Qed.

Lemma rounded_lookup_mask (st : store) img size px :
  (img < length st)%nat ->
  rounded st img size px !! length st = Some (ImageL (size, size) (mask_data size)).
Proof.
  intros Hlt. unfold rounded.
  rewrite list_lookup_insert_ne by lia.
  rewrite lookup_app_r, Nat.sub_diag by lia. reflexivity.
Qed.
End apply_macos_rounding.

(** ** Canvases and their pixels *)

Lemma is_canvas_inv size im :
  is_canvas size im = true ->
  exists px, im = ImageRGBA (size, size) px
    /\ length px = Z.to_nat (size * size)
    /\ Forall (fun p => 0 <= p.2 <= 255) px.
Proof.
  destruct im as [| | |sz px]; simpl; try discriminate.
  rewrite !andb_true_iff, !bool_decide_eq_true, forallb_forall.
  intros [[-> Hlen] Hpx]. exists px. split; [done|]. split; [done|].
  apply Forall_forall. intros [[[r g] b] a] Hin.
  apply list_elem_of_In, Hpx in Hin. unfold byte in Hin.
  rewrite !andb_true_iff, !Z.leb_le in Hin. simpl. lia.
Qed.

Section pixels.
Context `{RR : RoundedRectangle}.

Lemma mask_data_lookup size x y :
  0 <= x < size -> 0 <= y < size ->
  mask_data size !! Z.to_nat (y * size + x) = Some (mask_at size (x, y)).
Proof.
  intros Hx Hy. unfold mask_data, paint, mask_at.
  rewrite list_lookup_imap, lookup_replicate_2 by (by apply offset_lt).
  simpl. by rewrite (coords_offset size size).
Qed.

Lemma clipped_lookup px mask i r g b a m :
  px !! i = Some (r, g, b, a) -> mask !! i = Some m ->
  clipped px mask !! i = Some (r, g, b, Z.min a m).
Proof.
  intros Hp Hm. unfold clipped.
  rewrite !lookup_zip_with, !list_lookup_fmap, Hp, Hm. reflexivity.
Qed.

(** Pixel by pixel, one call keeps the colour and clips the alpha. *)
Lemma rounded_pixel (st : store) img size px x y :
  st !! img = Some (ImageRGBA (size, size) px) ->
  length px = Z.to_nat (size * size) ->
  0 <= x < size -> 0 <= y < size ->
  exists r g b a,
    pixel_at st img (x, y) = Some (r, g, b, a)
    /\ pixel_at (rounded st img size px) img (x, y)
       = Some (r, g, b, Z.min a (mask_at size (x, y))).
Proof.
  intros Himg Hlen Hx Hy.
  pose proof (lookup_lt_Some _ _ _ Himg) as Hlt.
  pose proof (offset_lt size size x y Hx Hy) as Hk.
  destruct (lookup_lt_is_Some_2 px (Z.to_nat (y * size + x))) as [[[[r g] b] a] Hp];
    [lia|].
  exists r, g, b, a. unfold pixel_at.
  rewrite Himg, rounded_lookup_img, offset_inside by done. simpl.
  split; [done|].
  apply clipped_lookup; [done|]. by apply mask_data_lookup.
Qed.

(** The mask object holds the mask value at every pixel. *)
Lemma rounded_mask_pixel (st : store) img size px x y :
  (img < length st)%nat -> 0 <= x < size -> 0 <= y < size ->
  band_at (rounded st img size px) (length st) (x, y) = Some (mask_at size (x, y)).
Proof.
  intros Hlt Hx Hy. unfold band_at.
  rewrite rounded_lookup_mask, offset_inside by done. simpl.
  by apply mask_data_lookup.
Qed.

Lemma clipped_fst px mask :
  length mask = length px -> (clipped px mask).*1 = px.*1.
Proof.
  intros Hlen. unfold clipped. apply list_eq. intros i.
  rewrite list_lookup_fmap, !lookup_zip_with, !list_lookup_fmap.
  destruct (px !! i) as [[c a]|] eqn:Hp; simpl; [|done].
  destruct (lookup_lt_is_Some_2 mask i) as [m Hm].
  { apply lookup_lt_Some in Hp. lia. }
  by rewrite Hm.
Qed.

Lemma clipped_snd px mask :
  length mask = length px -> (clipped px mask).*2 = zip_with Z.min (px.*2) mask.
Proof.
  intros Hlen. unfold clipped. apply list_eq. intros i.
  rewrite list_lookup_fmap, !lookup_zip_with, !list_lookup_fmap.
  destruct (px !! i) as [[c a]|] eqn:Hp; simpl; [|done].
  destruct (lookup_lt_is_Some_2 mask i) as [m Hm].
  { apply lookup_lt_Some in Hp. lia. }
  by rewrite Hm.
Qed.

(** [min(min(a, m), m) = min(a, m)], for whole canvases. *)
Lemma clipped_idemp px mask :
  length mask = length px -> clipped (clipped px mask) mask = clipped px mask.
Proof.
  intros Hlen. unfold clipped at 1.
  rewrite clipped_fst, clipped_snd by done. unfold clipped. f_equal.
  apply list_eq. intros i. rewrite !lookup_zip_with.
  destruct (px.*2 !! i) as [a|]; simpl; [|done].
  destruct (mask !! i) as [m|]; simpl; [|done].
  f_equal. lia.
Qed.
End pixels.

(** ** The corner masker *)

Lemma apply_macos_rounding_same `{RR : RoundedRectangle} img size :
  process_ai_icon.apply_macos_rounding img size
  = generate_icon.apply_macos_rounding img size.
Proof. reflexivity. Qed.

(** C1.  Masking twice with the same size leaves the canvas exactly as
    masking once does: on every RGBA canvas of side [size > 0] both runs
    succeed, return the canvas they were given, and the canvas after the
    second run equals the canvas after the first. *)
Theorem rounding_idempotent `{RR : RoundedRectangle} (st : store) img size im :
  0 < size -> st !! img = Some im -> is_canvas size im = true ->
  exists once twice,
    generate_icon.apply_macos_rounding img size st = (Ok img, once)
    /\ (img' ← generate_icon.apply_macos_rounding img size;
        generate_icon.apply_macos_rounding img' size) st = (Ok img, twice)
    /\ is_Some (once !! img)
    /\ twice !! img = once !! img.
Proof.
  intros Hsize Himg (px & -> & Hlen & _)%is_canvas_inv.
  pose proof (lookup_lt_Some _ _ _ Himg) as Hlt.
  assert (length (mask_data size) = length px) as Hmask
    by (rewrite length_mask_data; lia).
  pose proof (apply_macos_rounding_run st img size px ltac:(lia) Himg Hlen) as Hrun1.
  pose proof (rounded_lookup_img st img size px Hlt) as Hone.
  assert (img < length (rounded st img size px))%nat as Hlt1
    by (eapply lookup_lt_Some; eauto).
  pose proof (apply_macos_rounding_run _ img size _ ltac:(lia) Hone
                ltac:(rewrite length_clipped; lia)) as Hrun2.
  eexists _, _. split; [exact Hrun1|]. split.
  { erewrite bind_ok by exact Hrun1. exact Hrun2. }
  split; [by rewrite Hone|].
  rewrite rounded_lookup_img, Hone by done.
  by rewrite clipped_idemp.
Qed.

Lemma rounding_idempotent_witness :
  exists once twice,
    generate_icon.apply_macos_rounding (RR := spec_rounded_rectangle) 0%nat 5
      example_store = (Ok 0%nat, once)
    /\ (img' ← generate_icon.apply_macos_rounding (RR := spec_rounded_rectangle) 0%nat 5;
        generate_icon.apply_macos_rounding (RR := spec_rounded_rectangle) img' 5)
         example_store = (Ok 0%nat, twice)
    /\ is_Some (once !! 0%nat)
    /\ twice !! 0%nat = once !! 0%nat.
Proof.
  apply (rounding_idempotent (RR := spec_rounded_rectangle) example_store 0%nat 5
           example_canvas);
    [lia | reflexivity | reflexivity].
Defined.

(** C2.  At every pixel of an RGBA canvas of side [size > 0], the alpha of the
    masked canvas is the minimum of the input alpha and the value of the mask
    at that pixel, and therefore at most the input alpha.  The mask is the
    first object that the call allocates, at reference [length st]. *)
Theorem rounding_alpha_min `{RR : RoundedRectangle} (st : store) img size im :
  0 < size -> st !! img = Some im -> is_canvas size im = true ->
  exists st',
    generate_icon.apply_macos_rounding img size st = (Ok img, st')
    /\ forall x y, 0 <= x < size -> 0 <= y < size ->
       exists r g b a m r' g' b' a',
         pixel_at st img (x, y) = Some (r, g, b, a)
         /\ band_at st' (length st) (x, y) = Some m
         /\ pixel_at st' img (x, y) = Some (r', g', b', a')
         /\ a' = Z.min a m
         /\ a' <= a.
Proof.
  intros Hsize Himg (px & -> & Hlen & _)%is_canvas_inv.
  pose proof (lookup_lt_Some _ _ _ Himg) as Hlt.
  exists (rounded st img size px). split.
  { apply apply_macos_rounding_run; [lia|done..]. }
  intros x y Hx Hy.
  destruct (rounded_pixel st img size px x y Himg Hlen Hx Hy)
    as (r & g & b & a & Hin & Hout).
  exists r, g, b, a, (mask_at size (x, y)), r, g, b, (Z.min a (mask_at size (x, y))).
  split; [done|]. split; [by apply rounded_mask_pixel|].
  repeat split; [done|lia].
Qed.

Lemma rounding_alpha_min_witness :
  exists st',
    generate_icon.apply_macos_rounding (RR := spec_rounded_rectangle) 0%nat 5
      example_store = (Ok 0%nat, st')
    /\ forall x y, 0 <= x < 5 -> 0 <= y < 5 ->
       exists r g b a m r' g' b' a',
         pixel_at example_store 0%nat (x, y) = Some (r, g, b, a)
         /\ band_at st' (length example_store) (x, y) = Some m
         /\ pixel_at st' 0%nat (x, y) = Some (r', g', b', a')
         /\ a' = Z.min a m
         /\ a' <= a.
Proof.
  apply (rounding_alpha_min (RR := spec_rounded_rectangle) example_store 0%nat 5
           example_canvas);
    [lia | reflexivity | reflexivity].
Defined.

(** C3.  Masking leaves the R, G and B channels of every pixel of an RGBA
    canvas of side [size > 0] unchanged; only alpha may differ. *)
Theorem rounding_keeps_rgb `{RR : RoundedRectangle} (st : store) img size im :
  0 < size -> st !! img = Some im -> is_canvas size im = true ->
  exists st',
    generate_icon.apply_macos_rounding img size st = (Ok img, st')
    /\ forall x y, 0 <= x < size -> 0 <= y < size ->
       exists r g b a a',
         pixel_at st img (x, y) = Some (r, g, b, a)
         /\ pixel_at st' img (x, y) = Some (r, g, b, a').
Proof.
  intros Hsize Himg (px & -> & Hlen & _)%is_canvas_inv.
  exists (rounded st img size px). split.
  { apply apply_macos_rounding_run; [lia|done..]. }
  intros x y Hx Hy.
  destruct (rounded_pixel st img size px x y Himg Hlen Hx Hy)
    as (r & g & b & a & Hin & Hout).
  by exists r, g, b, a, (Z.min a (mask_at size (x, y))).
Qed.

Lemma rounding_keeps_rgb_witness :
  exists st',
    generate_icon.apply_macos_rounding (RR := spec_rounded_rectangle) 0%nat 5
      example_store = (Ok 0%nat, st')
    /\ forall x y, 0 <= x < 5 -> 0 <= y < 5 ->
       exists r g b a a',
         pixel_at example_store 0%nat (x, y) = Some (r, g, b, a)
         /\ pixel_at st' 0%nat (x, y) = Some (r, g, b, a').
Proof.
  apply (rounding_keeps_rgb (RR := spec_rounded_rectangle) example_store 0%nat 5
           example_canvas);
    [lia | reflexivity | reflexivity].
Defined.

(** C10.  The masker of [generate_icon.py] and the masker of
    [process_ai_icon.py] compute the same function: on every RGBA canvas of
    side [size > 0] both succeed, return the canvas they were given, and
    leave the same store, hence pixel-identical canvases. *)
Theorem rounding_implementations_agree `{RR : RoundedRectangle}
    (st : store) img size im :
  0 < size -> st !! img = Some im -> is_canvas size im = true ->
  exists st',
    generate_icon.apply_macos_rounding img size st = (Ok img, st')
    /\ process_ai_icon.apply_macos_rounding img size st = (Ok img, st')
    /\ is_Some (st' !! img).
Proof.
  intros Hsize Himg (px & -> & Hlen & _)%is_canvas_inv.
  pose proof (lookup_lt_Some _ _ _ Himg) as Hlt.
  pose proof (apply_macos_rounding_run st img size px ltac:(lia) Himg Hlen) as Hrun.
  exists (rounded st img size px). split; [exact Hrun|]. split.
  - etrans; [|exact Hrun].
    exact (f_equal (fun f => f st) (apply_macos_rounding_same img size)).
  - rewrite rounded_lookup_img by done. eauto.
Qed.

Lemma rounding_implementations_agree_witness :
  exists st',
    generate_icon.apply_macos_rounding (RR := spec_rounded_rectangle) 0%nat 5
      example_store = (Ok 0%nat, st')
    /\ process_ai_icon.apply_macos_rounding (RR := spec_rounded_rectangle) 0%nat 5
         example_store = (Ok 0%nat, st')
    /\ is_Some (st' !! 0%nat).
Proof.
  apply (rounding_implementations_agree (RR := spec_rounded_rectangle)
           example_store 0%nat 5
           example_canvas);
    [lia | reflexivity | reflexivity].
Defined.

(** ** The corner radius *)

Lemma truncates_sound n : forall lo size,
  truncates n lo = true -> lo <= size < lo + Z.of_nat n ->
  generate_icon.corner_radius size = 2237 * size / 10000.
Proof.
  induction n as [|n IH]; intros lo size Hn Hsize; [lia|].
  simpl in Hn. apply andb_true_iff in Hn as [Hlo Hn].
  destruct (decide (size = lo)) as [->|Hne].
  - by apply Z.eqb_eq.
  - apply (IH (lo + 1)); [done|lia].
Qed.

Lemma truncates_16bit : truncates (Z.to_nat 65536) 1 = true.
Proof. vm_compute. reflexivity. Qed.

Lemma corner_radius_truncated size :
  0 < size <= 65536 -> generate_icon.corner_radius size = 2237 * size / 10000.
Proof.
  intros Hsize. apply (truncates_sound _ 1 size truncates_16bit). lia.
Qed.

(** C4, as stated, fails: the radius is not [round(size * 0.2237)].  At
    [size = 512] the product is 114.5344, the code's radius is 114 and the
    nearest integer is 115. *)
Lemma radius_is_not_rounded :
  ~ (forall size, 0 < size ->
       generate_icon.corner_radius size = Py.round (float_of_int size * 0.2237)%float).
Proof.
  intros Hround. specialize (Hround 512 ltac:(lia)).
  vm_compute in Hround. discriminate.
Qed.

(** C4, amended.  For every positive size the masker draws its mask as the
    rounded rectangle over the full canvas, [(0, 0)] to [(size - 1, size - 1)],
    filled with 255 on a zero mask, whose radius is [int(size * 0.2237)]: the
    double-precision product truncated toward zero.  For every side up to
    65536 that is the integer part of [size * 2237 / 10000].  The ratio is
    the constant 0.2237. *)
Theorem mask_radius_truncated `{RR : RoundedRectangle} (st : store) img size im :
  0 < size -> st !! img = Some im -> is_canvas size im = true ->
  exists st' radius,
    generate_icon.apply_macos_rounding img size st = (Ok img, st')
    /\ st' !! length st
       = Some (ImageL (size, size)
                 (paint size (rounded_rectangle_region (0, 0, size - 1, size - 1) radius)
                    255 (replicate (Z.to_nat (size * size)) 0)))
    /\ radius = Py.int (float_of_int size * 0.2237)%float
    /\ (size <= 65536 -> 10000 * radius <= 2237 * size < 10000 * (radius + 1)).
Proof.
  intros Hsize Himg (px & -> & Hlen & _)%is_canvas_inv.
  pose proof (lookup_lt_Some _ _ _ Himg) as Hlt.
  exists (rounded st img size px), (generate_icon.corner_radius size).
  split; [apply apply_macos_rounding_run; (lia || done)|].
  split; [by apply rounded_lookup_mask|].
  split; [done|].
  intros Hmax. rewrite corner_radius_truncated by done.
  pose proof (Z.div_mod (2237 * size) 10000 ltac:(lia)).
  pose proof (Z.mod_pos_bound (2237 * size) 10000 ltac:(lia)).
  lia.
Qed.

Lemma mask_radius_truncated_witness :
  exists st' radius,
    generate_icon.apply_macos_rounding (RR := spec_rounded_rectangle) 0%nat 5
      example_store = (Ok 0%nat, st')
    /\ st' !! length example_store
       = Some (ImageL (5, 5)
                 (paint 5 (spec_rounded_rectangle (0, 0, 5 - 1, 5 - 1) radius)
                    255 (replicate (Z.to_nat (5 * 5)) 0)))
    /\ radius = Py.int (float_of_int 5 * 0.2237)%float
    /\ 10000 * radius <= 2237 * 5 < 10000 * (radius + 1).
Proof.
  destruct (mask_radius_truncated (RR := spec_rounded_rectangle) example_store 0%nat 5
              example_canvas)
    as (st' & radius & Hrun & Hmask & Hradius & Hfloor);
    [lia | reflexivity | reflexivity |].
  exists st', radius. repeat split; try assumption; apply Hfloor; lia.
Defined.

(** ** The corners at size 512 *)

Lemma pixel_at_alpha_nonneg (st : store) img size px xy r g b a :
  st !! img = Some (ImageRGBA size px) ->
  Forall (fun p => 0 <= p.2 <= 255) px ->
  pixel_at st img xy = Some (r, g, b, a) -> 0 <= a.
Proof.
  intros Himg Hpx. unfold pixel_at. rewrite Himg.
  destruct (offset size xy) as [i|]; simpl; [|done].
  intros Hi. by apply (Forall_lookup_1 _ _ _ _ Hpx) in Hi as [? _].
Qed.

(** C7.  With the rounded rectangle of the specification as the mask shape:
    after masking any 512x512 RGBA canvas at size 512, the four corner pixels
    (0,0), (511,0), (0,511) and (511,511) have alpha 0, because the mask is 0
    there: they lie outside the rounded rectangle. *)
Theorem corners_transparent (st : store) img im :
  st !! img = Some im -> is_canvas 512 im = true ->
  exists st',
    generate_icon.apply_macos_rounding (RR := spec_rounded_rectangle) img 512 st
    = (Ok img, st')
    /\ forall x y, x = 0 \/ x = 511 -> y = 0 \/ y = 511 ->
       spec_rounded_rectangle (0, 0, 511, 511) 114 (x, y) = false
       /\ band_at st' (length st) (x, y) = Some 0
       /\ exists r g b, pixel_at st' img (x, y) = Some (r, g, b, 0).
Proof.
  intros Himg (px & -> & Hlen & Hpx)%is_canvas_inv.
  pose proof (lookup_lt_Some _ _ _ Himg) as Hlt.
  exists (rounded (RR := spec_rounded_rectangle) st img 512 px). split.
  { apply apply_macos_rounding_run; [lia|done..]. }
  intros x y Hx Hy.
  destruct (rounded_pixel (RR := spec_rounded_rectangle) st img 512 px x y Himg Hlen)
    as (r & g & b & a & Hin & Hout); [lia..|].
  pose proof (pixel_at_alpha_nonneg _ _ _ _ _ _ _ _ _ Himg Hpx Hin) as Ha.
  rewrite rounded_mask_pixel, Hout by lia.
  assert (spec_rounded_rectangle (0, 0, 511, 511) 114 (x, y) = false
          /\ mask_at (RR := spec_rounded_rectangle) 512 (x, y) = 0) as [Hout_of_mask ->].
  { destruct Hx as [-> | ->], Hy as [-> | ->]; vm_compute; done. }
  split; [done|]. split; [done|].
  exists r, g, b. do 2 f_equal. lia.
Qed.

Lemma corners_transparent_witness :
  exists st',
    generate_icon.apply_macos_rounding (RR := spec_rounded_rectangle) 0%nat 512
      [ImageRGBA (512, 512) (replicate (Z.to_nat (512 * 512)) (36, 41, 47, 255))]
    = (Ok 0%nat, st')
    /\ forall x y, x = 0 \/ x = 511 -> y = 0 \/ y = 511 ->
       spec_rounded_rectangle (0, 0, 511, 511) 114 (x, y) = false
       /\ band_at st' 1%nat (x, y) = Some 0
       /\ exists r g b, pixel_at st' 0%nat (x, y) = Some (r, g, b, 0).
Proof.
  apply (corners_transparent
           [ImageRGBA (512, 512) (replicate (Z.to_nat (512 * 512)) (36, 41, 47, 255))]
           0%nat
           (ImageRGBA (512, 512) (replicate (Z.to_nat (512 * 512)) (36, 41, 47, 255))));
    [reflexivity | vm_compute; reflexivity].
Defined.

(** ** The background-removal preprocessor *)

Lemma new_data_whiten tolerance data : forall acc,
  foldl (fun new_data '(r, g, b, a) =>
           if (255 - tolerance <? r) && (255 - tolerance <? g)
              && (255 - tolerance <? b)
           then new_data ++ [(255, 255, 255, 0)]
           else new_data ++ [(r, g, b, a)]) acc data
  = acc ++ (whiten tolerance <$> data).
Proof.
  induction data as [|[[[r g] b] a] data IH]; intros acc; simpl.
  - by rewrite app_nil_r.
  - rewrite IH. unfold whiten at 2.
    destruct ((255 - tolerance <? r) && (255 - tolerance <? g)
              && (255 - tolerance <? b)); by rewrite <- app_assoc.
Qed.

Lemma make_transparent_run (st : store) img im tolerance :
  st !! img = Some im ->
  process_ai_icon.make_transparent img tolerance st
  = (Ok (length st),
     st ++ [ImageRGBA (im_size im) (whiten tolerance <$> PIL.to_rgba im)]).
Proof.
  intros Himg. pose proof (lookup_lt_Some _ _ _ Himg) as Hlt.
  unfold process_ai_icon.make_transparent.
  (* img = img.convert('RGBA') *)
  erewrite bind_ok; cycle 1.
  { unfold PIL.convert_RGBA. erewrite bind_ok by (by apply load_ok). reflexivity. }
  assert ((st ++ [ImageRGBA (im_size im) (PIL.to_rgba im)]) !! length st
          = Some (ImageRGBA (im_size im) (PIL.to_rgba im))) as Hnew.
  { rewrite lookup_app_r, Nat.sub_diag by lia. reflexivity. }
  (* data = img.getdata() *)
  erewrite bind_ok; cycle 1.
  { unfold PIL.getdata. erewrite bind_ok by (by apply load_ok). reflexivity. }
  rewrite new_data_whiten. cbn [app].
  (* img.putdata(new_data) *)
  erewrite bind_ok; cycle 1.
  { unfold PIL.putdata. erewrite bind_ok by (by apply load_ok). cbv iota beta.
    rewrite decide_True by (by rewrite length_fmap). reflexivity. }
  rewrite drop_ge, app_nil_r by (by rewrite length_fmap).
  unfold mret, M_ret. f_equal.
  rewrite insert_app_r_alt, Nat.sub_diag by lia. reflexivity.
Qed.

(** C9.  With tolerance 40 the preprocessor returns a new RGBA image in which
    every pixel whose three colour channels all exceed [255 - 40] has become
    [(255, 255, 255, 0)]; in particular a (250, 250, 250) pixel becomes
    [(255, 255, 255, 0)], and a (200, 200, 200) pixel is left unchanged. *)
Theorem make_transparent_tolerance_40 (st : store) img im :
  st !! img = Some im ->
  exists out,
    process_ai_icon.make_transparent img 40 st
    = (Ok (length st), st ++ [ImageRGBA (im_size im) out])
    /\ length out = length (PIL.to_rgba im)
    /\ forall i r g b a, PIL.to_rgba im !! i = Some (r, g, b, a) ->
         (255 - 40 < r /\ 255 - 40 < g /\ 255 - 40 < b ->
            out !! i = Some (255, 255, 255, 0))
         /\ ((r, g, b) = (250, 250, 250) -> out !! i = Some (255, 255, 255, 0))
         /\ ((r, g, b) = (200, 200, 200) -> out !! i = Some (200, 200, 200, a)).
Proof.
  intros Himg. exists (whiten 40 <$> PIL.to_rgba im).
  split; [by apply make_transparent_run|].
  split; [by rewrite length_fmap|].
  intros i r g b a Hi. rewrite list_lookup_fmap, Hi. simpl.
  split; [|split].
  - intros (Hr & Hg & Hb).
    apply Z.ltb_lt in Hr, Hg, Hb. by rewrite Hr, Hg, Hb.
  - intros [= -> -> ->]. reflexivity.
  - intros [= -> -> ->]. reflexivity.
Qed.

Lemma make_transparent_tolerance_40_witness :
  exists out,
    process_ai_icon.make_transparent 0%nat 40
      [ImageRGB (2, 1) [(250, 250, 250); (200, 200, 200)]]
    = (Ok 1%nat,
       [ImageRGB (2, 1) [(250, 250, 250); (200, 200, 200)]] ++ [ImageRGBA (2, 1) out])
    /\ length out = 2%nat
    /\ forall i r g b a,
         [(250, 250, 250, 255); (200, 200, 200, 255)] !! i = Some (r, g, b, a) ->
         (255 - 40 < r /\ 255 - 40 < g /\ 255 - 40 < b ->
            out !! i = Some (255, 255, 255, 0))
         /\ ((r, g, b) = (250, 250, 250) -> out !! i = Some (255, 255, 255, 0))
         /\ ((r, g, b) = (200, 200, 200) -> out !! i = Some (200, 200, 200, a)).
Proof.
  apply (make_transparent_tolerance_40
           [ImageRGB (2, 1) [(250, 250, 250); (200, 200, 200)]] 0%nat
           (ImageRGB (2, 1) [(250, 250, 250); (200, 200, 200)])).
  reflexivity.
Defined.

(** ** The renderer *)

Lemma length_paint {A} w region (ink : A) d : length (paint w region ink d) = length d.
Proof. unfold paint. apply length_imap. Qed.

Lemma paints_ellipse `{SH : Shapes} r xy fill :
  paints (ImageDraw.ellipse r xy fill) r
    (fun size => paint size.1 (ellipse_region xy) fill).
Proof.
  split; [intros; apply length_paint|].
  intros s size d Hr. by apply fill_RGBA_ok.
Qed.

Lemma paints_polygon `{SH : Shapes} r xy fill :
  paints (ImageDraw.polygon r xy fill) r
    (fun size => paint size.1 (polygon_region xy) fill).
Proof.
  split; [intros; apply length_paint|].
  intros s size d Hr. by apply fill_RGBA_ok.
Qed.

Lemma paints_skip r : paints (mret tt) r (fun _ d => d).
Proof.
  split; [done|]. intros s size d Hr.
  by rewrite list_insert_id.
Qed.

Lemma paints_seq c1 c2 r f1 f2 :
  paints c1 r f1 -> paints c2 r f2 ->
  paints (c1 ;; c2) r (fun size d => f2 size (f1 size d)).
Proof.
  intros [Hlen1 Hc1] [Hlen2 Hc2]. split.
  { intros. by rewrite Hlen2, Hlen1. }
  intros s size d Hr. pose proof (lookup_lt_Some _ _ _ Hr) as Hlt.
  erewrite bind_ok by (by apply Hc1).
  erewrite Hc2 by (by apply list_lookup_insert_eq).
  by rewrite list_insert_insert_eq.
Qed.

Lemma paints_for {A} (l : list A) body r f :
  (forall x, paints (body x) r (f x)) ->
  paints (for_ l body) r (fun size d => foldl (fun d x => f x size d) d l).
Proof.
  intros Hbody. induction l as [|x l IH]; simpl.
  - apply paints_skip.
  - apply (paints_seq _ _ _ _ _ (Hbody x) IH).
Qed.

Lemma renders_ret r : renders (mret r) r (fun _ d => d).
Proof.
  split; [done|]. intros s size d Hr.
  by rewrite list_insert_id.
Qed.

Lemma renders_seq c1 c2 r f1 f2 :
  paints c1 r f1 -> renders c2 r f2 ->
  renders (c1 ;; c2) r (fun size d => f2 size (f1 size d)).
Proof.
  intros [Hlen1 Hc1] [Hlen2 Hc2]. split.
  { intros. by rewrite Hlen2, Hlen1. }
  intros s size d Hr. pose proof (lookup_lt_Some _ _ _ Hr) as Hlt.
  erewrite bind_ok by (by apply Hc1).
  erewrite Hc2 by (by apply list_lookup_insert_eq).
  by rewrite list_insert_insert_eq.
Qed.

Lemma renders_draw (k : ref -> M ref) r f :
  renders (k r) r f -> renders (draw ← ImageDraw.Draw r; k draw) r f.
Proof. done. Qed.

(** A canvas that is allocated and then rendered on is the last object of
    the store, and its pixels do not depend on the objects before it. *)
Lemma new_then_render (k : ref -> M ref) f size c (st : store) :
  (forall img, renders (k img) img f) -> 0 <= size ->
  (img ← PIL.new RGBA (size, size) c; k img) st
  = (Ok (length st),
     st ++ [ImageRGBA (size, size) (f (size, size) (replicate (Z.to_nat (size * size)) c))]).
Proof.
  intros Hk Hsize. destruct (Hk (length st)) as [_ Hrun].
  erewrite bind_ok by (by apply new_ok). simpl.
  erewrite Hrun by (by rewrite lookup_app_r, Nat.sub_diag by lia).
  by rewrite insert_app_r_alt, Nat.sub_diag by lia.
Qed.

Section create_icon.
Context `{SH : Shapes} `{LM : Libm}.

(** For a size that [Image.new] accepts, the renderer returns a new
    canvas as the last object of the store, and the canvas is the same
    whatever the store held before. *)
Lemma create_icon_run size :
  0 <= size ->
  exists canvas,
    length canvas = Z.to_nat (size * size)
    /\ forall st : store,
         generate_icon.create_icon size st
         = (Ok (length st), st ++ [ImageRGBA (size, size) canvas]).
Proof.
  intros Hsize. unfold generate_icon.create_icon. cbv zeta.
  match goal with
  | |- context [mbind ?k (PIL.new RGBA _ _)] =>
      assert (exists f, forall img, renders (k img) img f) as [f Hf]
  end.
  { eexists. intros img. cbv beta. apply renders_draw.
    repeat (eapply renders_seq;
            [first [ apply paints_ellipse
                   | apply paints_polygon
                   | eapply paints_for; intros ?; apply paints_ellipse ]|]).
    apply renders_ret. }
  exists (f (size, size) (replicate (Z.to_nat (size * size)) (0, 0, 0, 0))). split.
  - destruct (Hf 0%nat) as [Hlen _]. by rewrite Hlen, length_replicate.
  - intros st. by apply new_then_render.
Qed.

Lemma create_icon_negative size (st : store) :
  size < 0 -> generate_icon.create_icon size st = (Raise ValueError, st).
Proof.
  intros Hsize. unfold generate_icon.create_icon.
  by erewrite bind_raise by (by apply new_negative).
Qed.

End create_icon.

Lemma apply_macos_rounding_negative `{RR : RoundedRectangle} img size (st : store) :
  size < 0 -> generate_icon.apply_macos_rounding img size st = (Raise ValueError, st).
Proof.
  intros Hsize. unfold generate_icon.apply_macos_rounding.
  by erewrite bind_raise by (by apply new_negative).
Qed.

(** C8.  For every positive size the renderer is a function of the size
    alone: there is one canvas that every invocation returns, as a new
    object, whatever the store holds; two successive invocations give two
    distinct objects with identical contents and leave the rest of the store
    as it was. *)
Theorem create_icon_deterministic `{SH : Shapes} `{LM : Libm} size :
  0 < size ->
  exists canvas,
    forall st : store,
      generate_icon.create_icon size st = (Ok (length st), st ++ [canvas])
      /\ (a ← generate_icon.create_icon size;
          b ← generate_icon.create_icon size;
          mret (a, b)) st
         = (Ok (length st, S (length st)), st ++ [canvas; canvas]).
Proof.
  intros Hsize.
  destruct (create_icon_run size ltac:(lia)) as (canvas & _ & Hrun).
  exists (ImageRGBA (size, size) canvas). intros st.
  split; [apply Hrun|].
  erewrite bind_ok by apply Hrun.
  erewrite bind_ok by apply Hrun.
  rewrite length_app, <- app_assoc. simpl.
  by rewrite Nat.add_1_r.
Qed.

Lemma create_icon_deterministic_witness :
  exists canvas,
    forall st : store,
      generate_icon.create_icon (SH := box_shapes) (LM := flat_libm) 16 st
      = (Ok (length st), st ++ [canvas])
      /\ (a ← generate_icon.create_icon (SH := box_shapes) (LM := flat_libm) 16;
          b ← generate_icon.create_icon (SH := box_shapes) (LM := flat_libm) 16;
          mret (a, b)) st
         = (Ok (length st, S (length st)), st ++ [canvas; canvas]).
Proof.
  apply (create_icon_deterministic (SH := box_shapes) (LM := flat_libm) 16). lia.
Defined.

(** C6, as stated, fails: a size of 0 is not rejected.  [create_icon(0)]
    returns an empty canvas. *)
Lemma size_zero_is_rendered :
  ~ (forall (SH : Shapes) (LM : Libm) size (st : store), size <= 0 ->
       exists e st', generate_icon.create_icon size st = (Raise e, st')).
Proof.
  intros Hfail.
  destruct (Hfail box_shapes flat_libm 0 [] ltac:(lia)) as (e & st' & Hrun).
  vm_compute in Hrun. discriminate.
Qed.

Lemma apply_macos_rounding_zero `{RR : RoundedRectangle} img (st : store) :
  generate_icon.apply_macos_rounding img 0 st
  = (Raise ValueError, st ++ [ImageL (0, 0) []]).
Proof.
  unfold generate_icon.apply_macos_rounding.
  erewrite bind_ok by (apply new_ok; simpl; lia).
  unfold ImageDraw.Draw. erewrite bind_ok by reflexivity.
  by erewrite bind_raise by (apply rounded_rectangle_empty_box; lia).
Qed.

(** C6, amended.  Every invalid size makes the masker fail, and every invalid
    size other than 0 makes the renderer fail, with an error that Pillow
    raises (the code validates nothing itself); no canvas is returned and no
    existing object is touched.  A negative integer: both raise [ValueError]
    in their first statement, the allocation, and create nothing.  A number
    that is not an integer: both raise in the allocation, [ValueError] when it
    is negative and [TypeError] otherwise, and create nothing.  The integer 0:
    the masker raises [ValueError] when it draws the rounded rectangle on the
    empty box, having allocated the empty mask only; the renderer does not
    fail, it returns a new empty canvas. *)
Theorem invalid_size_behaviour `{RR : RoundedRectangle} `{SH : Shapes} `{LM : Libm}
    (size : num) img (st : store) :
  invalid_size size = true ->
  match size with
  | Int z =>
      if decide (z = 0)
      then untyped.create_icon size st
           = (Ok (length st), st ++ [ImageRGBA (0, 0) []])
           /\ untyped.apply_macos_rounding img size st
              = (Raise ValueError, st ++ [ImageL (0, 0) []])
      else untyped.create_icon size st = (Raise ValueError, st)
           /\ untyped.apply_macos_rounding img size st = (Raise ValueError, st)
  | Float x =>
      let e := if (x <? 0)%float then ValueError else TypeError in
      untyped.create_icon size st = (Raise e, st)
      /\ untyped.apply_macos_rounding img size st = (Raise e, st)
  end.
Proof.
  intros Hsize. destruct size as [z|x]; simpl in *.
  - apply Z.leb_le in Hsize. destruct (decide (z = 0)) as [->|Hne].
    + split; [|apply apply_macos_rounding_zero].
      destruct (create_icon_run 0 ltac:(lia)) as (canvas & Hlen & Hrun).
      rewrite Hrun. by destruct canvas.
    + split.
      * apply create_icon_negative. lia.
      * apply apply_macos_rounding_negative. lia.
  - unfold Image_new_float. by destruct (x <? 0)%float.
Qed.

Lemma invalid_size_behaviour_witness :
  untyped.create_icon (SH := box_shapes) (LM := flat_libm) (Int 0) example_store
  = (Ok (length example_store), example_store ++ [ImageRGBA (0, 0) []])
  /\ untyped.apply_macos_rounding (RR := spec_rounded_rectangle) 0%nat (Int 0)
       example_store
     = (Raise ValueError, example_store ++ [ImageL (0, 0) []]).
Proof.
  apply (invalid_size_behaviour (RR := spec_rounded_rectangle) (SH := box_shapes)
           (LM := flat_libm) (Int 0) 0%nat example_store).
  reflexivity.
Defined.

(** ** The gradient of the arcs *)

(** C5, as stated, fails: no stamp of the green arc is sampled at [t = 1],
    and none at the closing angle of 30 degrees. *)
Lemma no_stamp_at_t_1 :
  ~ (exists angle, angle ∈ generate_icon.green_angles
       /\ (angle = 30 \/ PrimFloat.eqb (generate_icon.green_t angle) 1 = true)).
Proof.
  intros (angle & Hin & Hend).
  assert (forallb (fun a => negb (a =? 30)
                            && negb (PrimFloat.eqb (generate_icon.green_t a) 1))
            generate_icon.green_angles = true) as Hall
    by (vm_compute; reflexivity).
  rewrite forallb_forall in Hall.
  apply list_elem_of_In, Hall, andb_true_iff in Hin as [Hne Ht].
  apply negb_true_iff in Hne, Ht. apply Z.eqb_neq in Hne.
  destruct Hend as [->|Hend]; [done|congruence].
Qed.

(** C5, amended.  Each arc is stamped at the 100 integer angles from its
    opening angle up to, not including, its closing angle: -70 to 29 for
    the green arc, 110 to 209 for the blue arc.  The first stamp has [t = 0]
    and the colour of the gradient at 0; every stamp has [t < 1]; the last
    stamp has [t = 0.99], and its colour, once truncated to integers, is
    the colour of the gradient at 1. *)
Theorem arc_gradient_endpoints :
  (head generate_icon.green_angles = Some (-70)
   /\ last generate_icon.green_angles = Some 29
   /\ length generate_icon.green_angles = 100%nat
   /\ generate_icon.green_t (-70) = 0%float
   /\ generate_icon.green_fill (generate_icon.green_t (-70)) = (46, 180, 97, 255)
   /\ Forall (fun angle => PrimFloat.ltb (generate_icon.green_t angle) 1 = true)
        generate_icon.green_angles
   /\ generate_icon.green_t 29 = 0.99%float
   /\ generate_icon.green_fill (generate_icon.green_t 29) = (36, 160, 67, 255)
   /\ generate_icon.green_fill 1 = (36, 160, 67, 255))
  /\ (head generate_icon.blue_angles = Some 110
      /\ last generate_icon.blue_angles = Some 209
      /\ length generate_icon.blue_angles = 100%nat
      /\ generate_icon.blue_t 110 = 0%float
      /\ generate_icon.blue_fill (generate_icon.blue_t 110) = (67, 159, 247, 255)
      /\ Forall (fun angle => PrimFloat.ltb (generate_icon.blue_t angle) 1 = true)
           generate_icon.blue_angles
      /\ generate_icon.blue_t 209 = 0.99%float
      /\ generate_icon.blue_fill (generate_icon.blue_t 209) = (47, 129, 227, 255)
      /\ generate_icon.blue_fill 1 = (47, 129, 227, 255)).
Proof.
  assert (forall (t : Z -> float) l,
            forallb (fun a => PrimFloat.ltb (t a) 1) l = true ->
            Forall (fun a => PrimFloat.ltb (t a) 1 = true) l) as Hlt.
  { intros t l Hall. apply Forall_forall. intros a Ha.
    rewrite forallb_forall in Hall. by apply Hall, list_elem_of_In. }
  split.
  - repeat split; try (vm_compute; reflexivity).
    apply Hlt. vm_compute. reflexivity.
  - repeat split; try (vm_compute; reflexivity).
    apply Hlt. vm_compute. reflexivity.
Qed.


(** * Further properties *)

(** ** The masker: what it touches and what it keeps *)

Lemma is_canvas_iff size im :
  is_canvas size im = true <->
  exists px, im = ImageRGBA (size, size) px
    /\ length px = Z.to_nat (size * size)
    /\ Forall (fun p => byte_rgba p = true) px.
Proof.
  split.
  - destruct im as [| | |sz px]; simpl; try discriminate.
    rewrite !andb_true_iff, !bool_decide_eq_true, forallb_forall.
    intros [[-> Hlen] Hpx]. exists px. split; [done|]. split; [done|].
    apply Forall_forall. intros [[[r g] b] a] Hin.
    by apply list_elem_of_In, Hpx in Hin.
  - intros (px & -> & Hlen & Hpx). simpl.
    rewrite !andb_true_iff, !bool_decide_eq_true, forallb_forall.
    split; [done|]. intros [[[r g] b] a] Hin.
    by apply list_elem_of_In, (proj1 (Forall_forall _ _) Hpx) in Hin.
Qed.

Lemma byte_rgba_bounds r g b a :
  byte_rgba (r, g, b, a) = true <->
  (0 <= r <= 255 /\ 0 <= g <= 255 /\ 0 <= b <= 255 /\ 0 <= a <= 255).
Proof. unfold byte_rgba, byte. rewrite !andb_true_iff, !Z.leb_le. lia. Qed.

Section masker_frame.
Context `{RR : RoundedRectangle}.

Lemma mask_at_cases size xy :
  mask_at size xy
  = if rounded_rectangle_region (0, 0, size - 1, size - 1)
         (generate_icon.corner_radius size) xy then 255 else 0.
Proof. reflexivity. Qed.

Lemma length_rounded (st : store) img size px :
  length (rounded st img size px) = (length st + 6)%nat.
Proof. unfold rounded. rewrite length_insert, length_app. simpl. lia. Qed.

Lemma rounded_lookup_other (st : store) img size px r :
  (r < length st)%nat -> r <> img -> rounded st img size px !! r = st !! r.
Proof.
  intros Hlt Hne. unfold rounded.
  rewrite list_lookup_insert_ne by done. by rewrite lookup_app_l.
Qed.

Lemma clipped_bytes px mask :
  Forall (fun p => byte_rgba p = true) px ->
  Forall (fun m => m = 0 \/ m = 255) mask ->
  Forall (fun p => byte_rgba p = true) (clipped px mask).
Proof.
  intros Hpx Hmask. apply Forall_lookup. intros i [[[r g] b] a'] Hi.
  unfold clipped in Hi.
  apply lookup_zip_with_Some in Hi as (c & a2 & Heq & Hc & Ha2).
  apply lookup_zip_with_Some in Ha2 as (a & m & -> & Ha & Hm).
  apply list_lookup_fmap_Some in Hc as [[[[r1 g1] b1] a1] [-> Hp]].
  apply list_lookup_fmap_Some in Ha as (p2 & -> & Hp2).
  rewrite Hp in Hp2. simplify_eq/=.
  apply (Forall_lookup_1 _ _ _ _ Hpx) in Hp.
  apply (Forall_lookup_1 _ _ _ _ Hmask) in Hm.
  apply byte_rgba_bounds in Hp. apply byte_rgba_bounds. lia.
Qed.

Lemma mask_data_binary size : Forall (fun m => m = 0 \/ m = 255) (mask_data size).
Proof.
  apply Forall_lookup. intros i m. unfold mask_data, paint.
  rewrite list_lookup_imap. intros Hi.
  destruct (replicate _ _ !! i) as [v|] eqn:Hv; simplify_eq/=.
  apply lookup_replicate in Hv as [-> _].
  destruct (rounded_rectangle_region _ _ _); auto.
Qed.

End masker_frame.

(** X1.  The masker works in place and touches nothing else: it returns the
    reference it was given, leaves every other object that existed before
    the call as it was, and adds exactly six temporaries (the mask, the four
    bands and the new alpha band) after them. *)
Theorem rounding_frame `{RR : RoundedRectangle} (st : store) img size im :
  0 < size -> st !! img = Some im -> is_canvas size im = true ->
  exists st',
    generate_icon.apply_macos_rounding img size st = (Ok img, st')
    /\ length st' = (length st + 6)%nat
    /\ forall r, (r < length st)%nat -> r <> img -> st' !! r = st !! r.
Proof.
  intros Hsize Himg (px & -> & Hlen & _)%is_canvas_inv.
  exists (rounded st img size px).
  split; [apply apply_macos_rounding_run; (lia || done)|].
  split; [apply length_rounded|].
  intros r Hr Hne. by apply rounded_lookup_other.
Qed.

Lemma rounding_frame_witness :
  exists st',
    generate_icon.apply_macos_rounding (RR := spec_rounded_rectangle) 1%nat 5
      ([ImageL (1, 1) [7]; example_canvas]) = (Ok 1%nat, st')
    /\ length st' = (2 + 6)%nat
    /\ forall r, (r < 2)%nat -> r <> 1%nat ->
         st' !! r = [ImageL (1, 1) [7]; example_canvas] !! r.
Proof.
  apply (rounding_frame (RR := spec_rounded_rectangle)
           [ImageL (1, 1) [7]; example_canvas] 1%nat 5 example_canvas);
    [lia | reflexivity | reflexivity].
Defined.

(** X2.  Masking keeps a canvas a canvas: the result is again a square RGBA
    image of the same side with 8-bit channels. *)
Theorem rounding_keeps_canvas `{RR : RoundedRectangle} (st : store) img size im :
  0 < size -> st !! img = Some im -> is_canvas size im = true ->
  exists st' im',
    generate_icon.apply_macos_rounding img size st = (Ok img, st')
    /\ st' !! img = Some im'
    /\ is_canvas size im' = true.
Proof.
  intros Hsize Himg (px & -> & Hlen & Hpx)%is_canvas_iff.
  pose proof (lookup_lt_Some _ _ _ Himg) as Hlt.
  exists (rounded st img size px), (ImageRGBA (size, size) (clipped px (mask_data size))).
  split; [apply apply_macos_rounding_run; (lia || done)|].
  split; [by apply rounded_lookup_img|].
  apply is_canvas_iff. eexists. split; [done|]. split.
  - rewrite length_clipped; [done|]. rewrite length_mask_data. lia.
  - apply clipped_bytes; [done|apply mask_data_binary].
Qed.

Lemma rounding_keeps_canvas_witness :
  exists st' im',
    generate_icon.apply_macos_rounding (RR := spec_rounded_rectangle) 0%nat 5
      example_store = (Ok 0%nat, st')
    /\ st' !! 0%nat = Some im'
    /\ is_canvas 5 im' = true.
Proof.
  apply (rounding_keeps_canvas (RR := spec_rounded_rectangle) example_store 0%nat 5
           example_canvas);
    [lia | reflexivity | reflexivity].
Defined.

(** X3.  Clipping is all or nothing: a pixel that the rounded rectangle covers
    comes out exactly as it went in, and a pixel that it does not cover keeps
    its colour and gets alpha 0. *)
Theorem rounding_all_or_nothing `{RR : RoundedRectangle} (st : store) img size im :
  0 < size -> st !! img = Some im -> is_canvas size im = true ->
  exists st',
    generate_icon.apply_macos_rounding img size st = (Ok img, st')
    /\ forall x y, 0 <= x < size -> 0 <= y < size ->
       exists r g b a,
         pixel_at st img (x, y) = Some (r, g, b, a)
         /\ pixel_at st' img (x, y)
            = Some (if rounded_rectangle_region (0, 0, size - 1, size - 1)
                         (generate_icon.corner_radius size) (x, y)
                    then (r, g, b, a) else (r, g, b, 0)).
Proof.
  intros Hsize Himg (px & -> & Hlen & Hpx)%is_canvas_inv.
  exists (rounded st img size px).
  split; [apply apply_macos_rounding_run; (lia || done)|].
  intros x y Hx Hy.
  destruct (rounded_pixel st img size px x y Himg Hlen Hx Hy)
    as (r & g & b & a & Hin & Hout).
  pose proof (pixel_at_alpha_nonneg _ _ _ _ _ _ _ _ _ Himg Hpx Hin) as Ha.
  assert (a <= 255) as Ha'.
  { unfold pixel_at in Hin. rewrite Himg in Hin.
    destruct (offset _ _) as [i|]; simplify_eq/=.
    by apply (Forall_lookup_1 _ _ _ _ Hpx) in Hin as [_ ?]. }
  exists r, g, b, a. split; [done|]. rewrite Hout, mask_at_cases.
  destruct (rounded_rectangle_region _ _ _); do 2 f_equal; lia.
Qed.

Lemma rounding_all_or_nothing_witness :
  exists st',
    generate_icon.apply_macos_rounding (RR := spec_rounded_rectangle) 0%nat 5
      example_store = (Ok 0%nat, st')
    /\ forall x y, 0 <= x < 5 -> 0 <= y < 5 ->
       exists r g b a,
         pixel_at example_store 0%nat (x, y) = Some (r, g, b, a)
         /\ pixel_at st' 0%nat (x, y)
            = Some (if spec_rounded_rectangle (0, 0, 5 - 1, 5 - 1)
                         (generate_icon.corner_radius 5) (x, y)
                    then (r, g, b, a) else (r, g, b, 0)).
Proof.
  apply (rounding_all_or_nothing (RR := spec_rounded_rectangle) example_store 0%nat 5
           example_canvas);
    [lia | reflexivity | reflexivity].
Defined.

(** X4.  For every side from 1 to 65536 the corner radius, in both scripts,
    is not negative and less than a quarter of the side, so the rounded
    rectangle never degenerates: its straight edges are longer than half the
    side. *)
Theorem corner_radius_bounds size :
  0 < size <= 65536 ->
  0 <= generate_icon.corner_radius size
  /\ 4 * generate_icon.corner_radius size < size
  /\ process_ai_icon.corner_radius size = generate_icon.corner_radius size.
Proof.
  intros Hsize. pose proof (corner_radius_truncated size Hsize) as Hr.
  pose proof (Z.div_mod (2237 * size) 10000 ltac:(lia)).
  pose proof (Z.mod_pos_bound (2237 * size) 10000 ltac:(lia)).
  split; [rewrite Hr; lia|]. split; [rewrite Hr; lia|reflexivity].
Qed.

Lemma corner_radius_bounds_witness :
  0 <= generate_icon.corner_radius 1024
  /\ 4 * generate_icon.corner_radius 1024 < 1024
  /\ process_ai_icon.corner_radius 1024 = generate_icon.corner_radius 1024.
Proof. apply (corner_radius_bounds 1024). lia. Defined.

(** ** The masker on an image it cannot mask *)

Lemma for_ok_inv {A} (I : store -> Prop) (l : list A) body :
  (forall x s, x ∈ l -> I s -> exists s', body x s = (Ok tt, s') /\ I s') ->
  forall s, I s -> exists s', for_ l body s = (Ok tt, s') /\ I s'.
Proof.
  induction l as [|x l IH]; intros Hbody s Hs; simpl.
  - by exists s.
  - destruct (Hbody x s ltac:(left) Hs) as (s1 & Hx & Hs1).
    destruct (IH (fun y s Hy => Hbody y s ltac:(by right)) s1 Hs1) as (s2 & Hl & Hs2).
    exists s2. split; [|done]. by erewrite bind_ok by exact Hx.
Qed.

Lemma for_raise_inv {A} (I : store -> Prop) (l1 l2 : list A) x body e :
  (forall y s, y ∈ l1 -> I s -> exists s', body y s = (Ok tt, s') /\ I s') ->
  (forall s, I s -> exists s', body x s = (Raise e, s') /\ I s') ->
  forall s, I s -> exists s', for_ (l1 ++ x :: l2) body s = (Raise e, s') /\ I s'.
Proof.
  induction l1 as [|y l1 IH]; intros Hok Hraise s Hs; simpl.
  - destruct (Hraise s Hs) as (s1 & Hx & Hs1).
    exists s1. split; [|done]. by erewrite bind_raise by exact Hx.
  - destruct (Hok y s ltac:(left) Hs) as (s1 & Hy & Hs1).
    destruct (IH (fun z s Hz => Hok z s ltac:(by right)) Hraise s1 Hs1)
      as (s2 & Hl & Hs2).
    exists s2. split; [|done]. by erewrite bind_ok by exact Hy.
Qed.

Lemma for_raise_at {A} (I : store -> Prop) (l l1 l2 : list A) x body e :
  l = l1 ++ x :: l2 ->
  (forall y s, y ∈ l1 -> I s -> exists s', body y s = (Ok tt, s') /\ I s') ->
  (forall s, I s -> exists s', body x s = (Raise e, s') /\ I s') ->
  forall s, I s -> exists s', for_ l body s = (Raise e, s') /\ I s'.
Proof. intros ->. apply for_raise_inv. Qed.

Lemma range_split lo k hi :
  lo <= k < hi -> range lo hi = range lo k ++ k :: range (k + 1) hi.
Proof.
  intros Hk. assert (exists n, Z.to_nat (k - lo) = n) as [n Hn] by eauto.
  revert lo Hk Hn. induction n as [|n IH]; intros lo Hk Hn.
  - assert (lo = k) as -> by lia.
    by rewrite (range_nil k k), (range_cons k hi) by lia.
  - rewrite (range_cons lo hi), (range_cons lo k) by lia. simpl.
    f_equal. apply IH; lia.
Qed.

Lemma elem_of_range lo hi x : x ∈ range lo hi -> lo <= x < hi.
Proof.
  unfold range. rewrite elem_of_seqZ. lia.
Qed.

Lemma offset_outside w h x y : w <= x \/ h <= y -> offset (w, h) (x, y) = None.
Proof.
  intros Hout. unfold offset.
  destruct (0 <=? x); simpl; [|done].
  destruct (x <? w) eqn:Hx; simpl; [|done].
  destruct (0 <=? y); simpl; [|done].
  destruct (y <? h) eqn:Hy; simpl; [|done].
  apply Z.ltb_lt in Hx, Hy. lia.
Qed.

Section mismatch.
Variables (s0 : store) (a mask new_alpha : ref) (wa ha size : Z) (da dm : list Z).
Hypothesis new_alpha_a : new_alpha <> a.
Hypothesis new_alpha_mask : new_alpha <> mask.
Hypothesis new_alpha_lt : (new_alpha < length s0)%nat.
Hypothesis lookup_a : s0 !! a = Some (ImageL (wa, ha) da).
Hypothesis lookup_mask : s0 !! mask = Some (ImageL (size, size) dm).
Hypothesis length_da : length da = Z.to_nat (wa * ha).
Hypothesis length_dm : length dm = Z.to_nat (size * size).

Let I := only_band s0 new_alpha (size, size) (Z.to_nat (size * size)).

(** One pass of the loop body on a coordinate inside both images. *)
Lemma clip_body_ok x y s :
  0 <= x < size -> 0 <= y < size -> x < wa -> y < ha -> I s ->
  exists s',
    (orig_alpha ← PIL.getpixel a (x, y);
     mask_alpha ← PIL.getpixel mask (x, y);
     PIL.putpixel new_alpha (x, y) (Z.min orig_alpha mask_alpha)) s = (Ok tt, s')
    /\ I s'.
Proof.
  intros Hx Hy Hxa Hya (d & Hd & ->).
  destruct (lookup_lt_is_Some_2 da (Z.to_nat (y * wa + x))) as [va Hva].
  { rewrite length_da. apply offset_lt; lia. }
  destruct (lookup_lt_is_Some_2 dm (Z.to_nat (y * size + x))) as [vm Hvm].
  { rewrite length_dm. by apply offset_lt. }
  eexists. split.
  - erewrite bind_ok; cycle 1.
    { eapply getpixel_ok; [by rewrite list_lookup_insert_ne| |exact Hva].
      apply offset_inside; lia. }
    erewrite bind_ok; cycle 1.
    { eapply getpixel_ok; [by rewrite list_lookup_insert_ne| |exact Hvm].
      by apply offset_inside. }
    eapply putpixel_ok; [by apply list_lookup_insert_eq|by apply offset_inside|].
    rewrite Hd. by apply offset_lt.
  - rewrite list_insert_insert_eq. eexists. split; [|done].
    by rewrite length_insert.
Qed.

(** The loop body on a coordinate outside the alpha band. *)
Lemma clip_body_raise x y s :
  wa <= x \/ ha <= y -> I s ->
  exists s',
    (orig_alpha ← PIL.getpixel a (x, y);
     mask_alpha ← PIL.getpixel mask (x, y);
     PIL.putpixel new_alpha (x, y) (Z.min orig_alpha mask_alpha)) s
    = (Raise IndexError, s')
    /\ I s'.
Proof.
  intros Hout (d & Hd & ->). eexists. split; [|by exists d].
  erewrite bind_raise; [done|]. unfold PIL.getpixel.
  erewrite bind_ok by (apply load_ok; by rewrite list_lookup_insert_ne).
  cbv beta iota. by rewrite offset_outside.
Qed.

(** A canvas at least as large as the mask: the loops run to their end. *)
Lemma clip_loop_ok s :
  size <= wa -> size <= ha -> I s ->
  exists s',
    for_ (range 0 size) (fun y =>
      for_ (range 0 size) (fun x =>
        orig_alpha ← PIL.getpixel a (x, y);
        mask_alpha ← PIL.getpixel mask (x, y);
        PIL.putpixel new_alpha (x, y) (Z.min orig_alpha mask_alpha))) s
    = (Ok tt, s')
    /\ I s'.
Proof.
  intros Hwa Hha. revert s. apply for_ok_inv.
  intros y s Hy%elem_of_range. revert s. apply for_ok_inv.
  intros x s Hx%elem_of_range. apply clip_body_ok; lia.
Qed.

(** A canvas narrower or shorter than the mask: the loops stop at the first
    coordinate outside the canvas. *)
Lemma clip_loop_raise s :
  0 < size -> 0 <= wa -> 0 <= ha -> wa < size \/ ha < size -> I s ->
  exists s',
    for_ (range 0 size) (fun y =>
      for_ (range 0 size) (fun x =>
        orig_alpha ← PIL.getpixel a (x, y);
        mask_alpha ← PIL.getpixel mask (x, y);
        PIL.putpixel new_alpha (x, y) (Z.min orig_alpha mask_alpha))) s
    = (Raise IndexError, s')
    /\ I s'.
Proof.
  intros Hsize Hwa Hha Hsmall.
  destruct (decide (wa < size /\ 0 < ha)) as [[Hw Hh]|Hrow].
  - (* the first row runs off the right edge *)
    revert s. apply (for_raise_at _ _ _ _ _ _ _ (range_split 0 0 size ltac:(lia))).
    { intros y s Hy%elem_of_range. lia. }
    apply (for_raise_at _ _ _ _ _ _ _ (range_split 0 wa size ltac:(lia))).
    + intros x s Hx%elem_of_range. apply clip_body_ok; lia.
    + intros s. apply clip_body_raise. lia.
  - (* the rows run off the bottom edge *)
    assert (ha < size) as Hh by lia.
    revert s. apply (for_raise_at _ _ _ _ _ _ _ (range_split 0 ha size ltac:(lia))).
    + intros y s Hy%elem_of_range. revert s. apply for_ok_inv.
      intros x s Hx%elem_of_range. apply clip_body_ok; lia.
    + apply (for_raise_at _ _ _ _ _ _ _ (range_split 0 0 size ltac:(lia))).
      * intros x s Hx%elem_of_range. lia.
      * intros s. apply clip_body_raise. lia.
Qed.
End mismatch.

Lemma valid_image_rgba size px :
  valid_image (ImageRGBA size px) = true ->
  0 <= size.1 /\ 0 <= size.2 /\ length px = Z.to_nat (size.1 * size.2)
  /\ Forall (fun p => byte_rgba p = true) px.
Proof.
  simpl. rewrite !andb_true_iff, !Z.leb_le, bool_decide_eq_true, forallb_forall.
  intros [[[Hw Hh] Hlen] Hpx]. repeat split; [done..|].
  apply Forall_forall. intros p Hp. by apply Hpx, list_elem_of_In.
Qed.

Section masker_errors.
Context `{RR : RoundedRectangle}.

(** The masker up to the unpacking of the bands: the mask and the bands of
    the image have been allocated, whatever the image is. *)
Lemma rounding_unfold (st : store) img size im :
  0 < size -> st !! img = Some im ->
  generate_icon.apply_macos_rounding img size st
  = match seq (S (length st)) (length (PIL.bands im)) with
    | [r; g; b; a] =>
        new_alpha ← PIL.new L (size, size) 0;
        for_ (range 0 size) (fun y =>
          for_ (range 0 size) (fun x =>
            orig_alpha ← PIL.getpixel a (x, y);
            mask_alpha ← PIL.getpixel (length st) (x, y);
            PIL.putpixel new_alpha (x, y) (Z.min orig_alpha mask_alpha)));;
        PIL.putalpha img new_alpha;;
        mret img
    | _ => raise ValueError
    end (st ++ ImageL (size, size) (mask_data size) :: PIL.bands im).
Proof.
  intros Hsize Himg.
  pose proof (lookup_lt_Some _ _ _ Himg) as Hlt.
  unfold generate_icon.apply_macos_rounding.
  erewrite bind_ok by (apply new_ok; simpl; lia).
  unfold ImageDraw.Draw. erewrite bind_ok by reflexivity.
  erewrite bind_ok; cycle 1.
  { apply rounded_rectangle_ok; [|lia..]. simpl. rewrite lookup_app_r by lia.
    rewrite Nat.sub_diag. reflexivity. }
  rewrite insert_app_r_alt, Nat.sub_diag by lia. cbn [insert list_insert fst snd].
  fold (mask_data size).
  erewrite bind_ok; cycle 1.
  { eapply split_ok. rewrite lookup_app_l by lia. exact Himg. }
  rewrite length_app. cbn [length]. rewrite Nat.add_1_r, <- app_assoc.
  reflexivity.
Qed.

Lemma only_band_lookup (s0 : store) r size n s r' :
  only_band s0 r size n s -> r' <> r -> s !! r' = s0 !! r'.
Proof. intros (d & _ & ->) Hne. by rewrite list_lookup_insert_ne. Qed.

Lemma loop_store_lookup (st : store) size w h px r :
  (r < length st)%nat -> loop_store st size w h px !! r = st !! r.
Proof. intros Hr. unfold loop_store. by rewrite lookup_app_l. Qed.

Lemma rounding_loops (st : store) img size w h px :
  0 < size -> st !! img = Some (ImageRGBA (w, h) px) ->
  generate_icon.apply_macos_rounding img size st
  = (for_ (range 0 size) (fun y =>
       for_ (range 0 size) (fun x =>
         orig_alpha ← PIL.getpixel (length st + 4)%nat (x, y);
         mask_alpha ← PIL.getpixel (length st) (x, y);
         PIL.putpixel (length st + 5)%nat (x, y) (Z.min orig_alpha mask_alpha)));;
     PIL.putalpha img (length st + 5)%nat;;
     mret img) (loop_store st size w h px).
Proof.
  intros Hsize Himg. rewrite (rounding_unfold st img size _ Hsize Himg).
  cbn [PIL.bands length seq].
  erewrite bind_ok by (apply new_ok; simpl; lia).
  rewrite length_app. cbn [length PIL.blank fst snd].
  rewrite <- app_assoc. cbn [app].
  replace (S (S (S (S (S (length st)))))) with (length st + 5)%nat by lia.
  replace (S (S (S (S (length st))))) with (length st + 4)%nat by lia.
  reflexivity.
Qed.

End masker_errors.

(** X5.  A size larger than the canvas is refused: on an RGBA image that is
    narrower or shorter than [size], the masker raises [IndexError] while it
    reads the alpha band, and every object that existed before the call,
    the canvas included, is left as it was. *)
Theorem rounding_size_too_large `{RR : RoundedRectangle} (st : store) img size w h px :
  0 < size -> st !! img = Some (ImageRGBA (w, h) px) ->
  valid_image (ImageRGBA (w, h) px) = true ->
  w < size \/ h < size ->
  exists st',
    generate_icon.apply_macos_rounding img size st = (Raise IndexError, st')
    /\ forall r, (r < length st)%nat -> st' !! r = st !! r.
Proof.
  intros Hsize Himg (Hw & Hh & Hlen & _)%valid_image_rgba Hsmall. simpl in *.
  rewrite (rounding_loops st img size w h px) by (lia || done).
  destruct (clip_loop_raise (loop_store st size w h px)
              (length st + 4) (length st) (length st + 5) w h size
              (px.*2) (mask_data size)) with (s := loop_store st size w h px)
    as (s' & Hloop & Hs'); try lia.
  - unfold loop_store. rewrite length_app. simpl. lia.
  - unfold loop_store. rewrite lookup_app_r by lia.
    by replace (length st + 4 - length st)%nat with 4%nat by lia.
  - unfold loop_store. by rewrite lookup_app_r, Nat.sub_diag by lia.
  - by rewrite length_fmap.
  - apply length_mask_data.
  - eexists. split; [apply length_replicate|].
    symmetry. apply list_insert_id. unfold loop_store.
    rewrite lookup_app_r by lia.
    by replace (length st + 5 - length st)%nat with 5%nat by lia.
  - exists s'. split; [by erewrite bind_raise by exact Hloop|].
    intros r Hr. rewrite (only_band_lookup _ _ _ _ _ _ Hs') by lia.
    by apply loop_store_lookup.
Qed.

Lemma rounding_size_too_large_witness :
  exists st',
    generate_icon.apply_macos_rounding (RR := spec_rounded_rectangle) 0%nat 6
      example_store = (Raise IndexError, st')
    /\ forall r, (r < length example_store)%nat -> st' !! r = example_store !! r.
Proof.
  apply (rounding_size_too_large (RR := spec_rounded_rectangle) example_store 0%nat 6
           5 5 ((fun i => (10 * i, 5 * i, 255 - i, 255 - 10 * i)) <$> seqZ 0 25));
    [lia | reflexivity | reflexivity | lia].
Defined.

(** X6.  A size smaller than the canvas is refused as well: on an RGBA image
    at least as wide and as high as [size] but not [size] by [size], the loops
    run to their end and [putalpha] then raises [ValueError], so the canvas is
    neither cropped nor padded: every object that existed before the call is
    left as it was. *)
Theorem rounding_size_too_small `{RR : RoundedRectangle} (st : store) img size w h px :
  0 < size -> st !! img = Some (ImageRGBA (w, h) px) ->
  valid_image (ImageRGBA (w, h) px) = true ->
  size <= w -> size <= h -> (w, h) <> (size, size) ->
  exists st',
    generate_icon.apply_macos_rounding img size st = (Raise ValueError, st')
    /\ forall r, (r < length st)%nat -> st' !! r = st !! r.
Proof.
  intros Hsize Himg (Hw & Hh & Hlen & _)%valid_image_rgba Hsw Hsh Hne. simpl in *.
  pose proof (lookup_lt_Some _ _ _ Himg) as Hlt.
  rewrite (rounding_loops st img size w h px) by (lia || done).
  destruct (clip_loop_ok (loop_store st size w h px)
              (length st + 4) (length st) (length st + 5) w h size
              (px.*2) (mask_data size)) with (s := loop_store st size w h px)
    as (s' & Hloop & Hs'); try lia.
  - unfold loop_store. rewrite length_app. simpl. lia.
  - unfold loop_store. rewrite lookup_app_r by lia.
    by replace (length st + 4 - length st)%nat with 4%nat by lia.
  - unfold loop_store. by rewrite lookup_app_r, Nat.sub_diag by lia.
  - by rewrite length_fmap.
  - apply length_mask_data.
  - eexists. split; [apply length_replicate|].
    symmetry. apply list_insert_id. unfold loop_store.
    rewrite lookup_app_r by lia.
    by replace (length st + 5 - length st)%nat with 5%nat by lia.
  - exists s'. split.
    + erewrite bind_ok by exact Hloop.
      erewrite bind_raise; [done|]. unfold PIL.putalpha.
      erewrite bind_ok; cycle 1.
      { apply load_ok. rewrite (only_band_lookup _ _ _ _ _ _ Hs') by lia.
        rewrite loop_store_lookup by done. exact Himg. }
      destruct Hs' as (d & Hd & ->).
      erewrite bind_ok; cycle 1.
      { apply load_ok. apply list_lookup_insert_eq.
        unfold loop_store. rewrite length_app. simpl. lia. }
      cbv beta iota. rewrite decide_False; [done|]. simpl. congruence.
    + intros r Hr. rewrite (only_band_lookup _ _ _ _ _ _ Hs') by lia.
      by apply loop_store_lookup.
Qed.

Lemma rounding_size_too_small_witness :
  exists st',
    generate_icon.apply_macos_rounding (RR := spec_rounded_rectangle) 0%nat 4
      example_store = (Raise ValueError, st')
    /\ forall r, (r < length example_store)%nat -> st' !! r = example_store !! r.
Proof.
  apply (rounding_size_too_small (RR := spec_rounded_rectangle) example_store 0%nat 4
           5 5 ((fun i => (10 * i, 5 * i, 255 - i, 255 - 10 * i)) <$> seqZ 0 25));
    [lia | reflexivity | reflexivity | lia | lia | congruence].
Defined.

(** X7.  An image that is not RGBA is refused: an L, LA or RGB image splits
    into fewer than four bands, the unpacking raises [ValueError], and every
    object that existed before the call is left as it was. *)
Theorem rounding_not_rgba `{RR : RoundedRectangle} (st : store) img size im :
  0 < size -> st !! img = Some im -> im_mode im <> RGBA ->
  exists st',
    generate_icon.apply_macos_rounding img size st = (Raise ValueError, st')
    /\ forall r, (r < length st)%nat -> st' !! r = st !! r.
Proof.
  intros Hsize Himg Hmode.
  rewrite (rounding_unfold st img size im) by (lia || done).
  exists (st ++ ImageL (size, size) (mask_data size) :: PIL.bands im). split.
  - destruct im; simpl in *; done.
  - intros r Hr. by rewrite lookup_app_l.
Qed.

Lemma rounding_not_rgba_witness :
  exists st',
    generate_icon.apply_macos_rounding (RR := spec_rounded_rectangle) 0%nat 2
      [ImageRGB (2, 2) [(1, 2, 3); (4, 5, 6); (7, 8, 9); (10, 11, 12)]]
    = (Raise ValueError, st')
    /\ forall r, (r < 1)%nat ->
         st' !! r = [ImageRGB (2, 2) [(1, 2, 3); (4, 5, 6); (7, 8, 9); (10, 11, 12)]] !! r.
Proof.
  apply (rounding_not_rgba (RR := spec_rounded_rectangle)
           [ImageRGB (2, 2) [(1, 2, 3); (4, 5, 6); (7, 8, 9); (10, 11, 12)]] 0%nat 2
           (ImageRGB (2, 2) [(1, 2, 3); (4, 5, 6); (7, 8, 9); (10, 11, 12)]));
    [lia | reflexivity | discriminate].
Defined.

(** ** The preprocessor: what it touches and what it keeps *)

Lemma to_rgba_bytes im :
  valid_image im = true -> Forall (fun p => byte_rgba p = true) (PIL.to_rgba im).
Proof.
  destruct im as [size d|size d|size d|size d]; simpl;
    rewrite andb_true_iff, forallb_forall; intros [_ Hd];
    apply Forall_forall; intros p Hp.
  - apply list_elem_of_fmap in Hp as (v & -> & Hv).
    apply list_elem_of_In, Hd in Hv. unfold byte_rgba. by rewrite Hv.
  - apply list_elem_of_fmap in Hp as ([l a] & -> & Hv).
    apply list_elem_of_In, Hd, andb_true_iff in Hv as [Hl Ha].
    unfold byte_rgba. simpl in *. by rewrite Hl, Ha.
  - apply list_elem_of_fmap in Hp as ([[r g] b] & -> & Hv).
    apply list_elem_of_In, Hd in Hv. simpl in Hv.
    apply andb_true_iff in Hv as [Hrg Hb].
    unfold byte_rgba. by rewrite Hrg, Hb.
  - by apply list_elem_of_In, Hd in Hp.
Qed.

Lemma length_to_rgba im :
  valid_image im = true ->
  0 <= (im_size im).1 /\ 0 <= (im_size im).2
  /\ length (PIL.to_rgba im) = Z.to_nat ((im_size im).1 * (im_size im).2).
Proof.
  destruct im as [size d|size d|size d|size d]; simpl;
    rewrite !andb_true_iff, !Z.leb_le, bool_decide_eq_true;
    intros [[[Hw Hh] Hlen] _]; rewrite ?length_fmap; done.
Qed.

Lemma whiten_cases tolerance p :
  whiten tolerance p = (255, 255, 255, 0) \/ whiten tolerance p = p.
Proof.
  destruct p as [[[r g] b] a]. unfold whiten.
  destruct (_ && _ && _); auto.
Qed.

Lemma whiten_idemp tolerance p :
  whiten tolerance (whiten tolerance p) = whiten tolerance p.
Proof.
  destruct p as [[[r g] b] a]. unfold whiten.
  destruct ((255 - tolerance <? r) && (255 - tolerance <? g)
            && (255 - tolerance <? b)) eqn:Hc; cbv beta iota.
  - clear Hc. destruct (_ && _ && _); reflexivity.
  - by rewrite Hc.
Qed.

Lemma whiten_bytes tolerance p :
  byte_rgba p = true -> byte_rgba (whiten tolerance p) = true.
Proof. intros Hp. by destruct (whiten_cases tolerance p) as [-> | ->]. Qed.

Lemma whiten_mono t t' p :
  t <= t' -> whiten t' p <> (255, 255, 255, 0) -> whiten t p = whiten t' p.
Proof.
  destruct p as [[[r g] b] a]. unfold whiten. intros Ht.
  destruct ((255 - t' <? r) && (255 - t' <? g) && (255 - t' <? b)) eqn:Hc'; [done|].
  intros _.
  destruct ((255 - t <? r) && (255 - t <? g) && (255 - t <? b)) eqn:Hc; [|done].
  rewrite !andb_true_iff, !Z.ltb_lt in Hc.
  rewrite !andb_false_iff, !Z.ltb_ge in Hc'. lia.
Qed.

Lemma whiten_low tolerance p :
  tolerance <= 0 -> byte_rgba p = true -> whiten tolerance p = p.
Proof.
  destruct p as [[[r g] b] a]. intros Ht Hp%byte_rgba_bounds. unfold whiten.
  replace (255 - tolerance <? r) with false; [done|].
  symmetry. apply Z.ltb_ge. lia.
Qed.

Lemma whiten_high tolerance p :
  255 < tolerance -> byte_rgba p = true -> whiten tolerance p = (255, 255, 255, 0).
Proof.
  destruct p as [[[r g] b] a]. intros Ht Hp%byte_rgba_bounds. unfold whiten.
  replace (255 - tolerance <? r) with true by (symmetry; apply Z.ltb_lt; lia).
  replace (255 - tolerance <? g) with true by (symmetry; apply Z.ltb_lt; lia).
  replace (255 - tolerance <? b) with true by (symmetry; apply Z.ltb_lt; lia).
  done.
Qed.

(** X8.  The preprocessor never modifies the image it is given: it returns a
    new RGBA image of the same size and pixel count, allocated after the
    existing objects, all of which stay as they were; every pixel of the new
    image is either the input pixel, converted to RGBA, or [(255, 255, 255, 0)]. *)
Theorem make_transparent_fresh (st : store) img im tolerance :
  st !! img = Some im ->
  exists out,
    process_ai_icon.make_transparent img tolerance st
    = (Ok (length st), st ++ [ImageRGBA (im_size im) out])
    /\ (st ++ [ImageRGBA (im_size im) out]) !! img = Some im
    /\ length out = length (PIL.to_rgba im)
    /\ forall i p, out !! i = Some p ->
         p = (255, 255, 255, 0) \/ PIL.to_rgba im !! i = Some p.
Proof.
  intros Himg. exists (whiten tolerance <$> PIL.to_rgba im).
  split; [by apply make_transparent_run|].
  split; [by apply lookup_app_l_Some|].
  split; [by rewrite length_fmap|].
  intros i p (q & -> & Hq)%list_lookup_fmap_Some.
  destruct (whiten_cases tolerance q) as [-> | ->]; auto.
Qed.

Lemma make_transparent_fresh_witness :
  exists out,
    process_ai_icon.make_transparent 0%nat 30
      [ImageRGB (2, 1) [(250, 250, 250); (200, 200, 200)]]
    = (Ok 1%nat,
       [ImageRGB (2, 1) [(250, 250, 250); (200, 200, 200)]] ++ [ImageRGBA (2, 1) out])
    /\ ([ImageRGB (2, 1) [(250, 250, 250); (200, 200, 200)]] ++ [ImageRGBA (2, 1) out])
         !! 0%nat
       = Some (ImageRGB (2, 1) [(250, 250, 250); (200, 200, 200)])
    /\ length out = 2%nat
    /\ forall i p, out !! i = Some p ->
         p = (255, 255, 255, 0)
         \/ [(250, 250, 250, 255); (200, 200, 200, 255)] !! i = Some p.
Proof.
  apply (make_transparent_fresh
           [ImageRGB (2, 1) [(250, 250, 250); (200, 200, 200)]] 0%nat
           (ImageRGB (2, 1) [(250, 250, 250); (200, 200, 200)]) 30).
  reflexivity.
Defined.

(** X9.  The preprocessor is idempotent: run on its own result with the same
    tolerance, it returns an image equal to that result. *)
Theorem make_transparent_idempotent (st : store) img im tolerance :
  st !! img = Some im ->
  exists once,
    process_ai_icon.make_transparent img tolerance st = (Ok (length st), st ++ [once])
    /\ (img' ← process_ai_icon.make_transparent img tolerance;
        process_ai_icon.make_transparent img' tolerance) st
       = (Ok (S (length st)), st ++ [once; once]).
Proof.
  intros Himg.
  exists (ImageRGBA (im_size im) (whiten tolerance <$> PIL.to_rgba im)).
  pose proof (make_transparent_run st img im tolerance Himg) as Hrun.
  split; [done|].
  erewrite bind_ok by exact Hrun.
  erewrite make_transparent_run
    by (by rewrite lookup_app_r, Nat.sub_diag by lia).
  rewrite length_app, Nat.add_1_r, <- app_assoc. simpl.
  do 4 f_equal. simpl. rewrite <- list_fmap_compose. f_equal.
  apply list_fmap_ext. intros i p _. apply whiten_idemp.
Qed.

Lemma make_transparent_idempotent_witness :
  exists once,
    process_ai_icon.make_transparent 0%nat 40
      [ImageRGB (2, 1) [(250, 250, 250); (200, 200, 200)]]
    = (Ok 1%nat, [ImageRGB (2, 1) [(250, 250, 250); (200, 200, 200)]] ++ [once])
    /\ (img' ← process_ai_icon.make_transparent 0%nat 40;
        process_ai_icon.make_transparent img' 40)
         [ImageRGB (2, 1) [(250, 250, 250); (200, 200, 200)]]
       = (Ok 2%nat,
          [ImageRGB (2, 1) [(250, 250, 250); (200, 200, 200)]] ++ [once; once]).
Proof.
  apply (make_transparent_idempotent
           [ImageRGB (2, 1) [(250, 250, 250); (200, 200, 200)]] 0%nat
           (ImageRGB (2, 1) [(250, 250, 250); (200, 200, 200)]) 40).
  reflexivity.
Defined.

(** X10.  The tolerance at its edges: on an 8-bit image, a tolerance of 0 or
    less changes no pixel (the result is the plain RGBA conversion), and a
    tolerance above 255 turns every pixel into [(255, 255, 255, 0)]. *)
Theorem make_transparent_edge_tolerance (st : store) img im tolerance :
  st !! img = Some im -> valid_image im = true ->
  tolerance <= 0 \/ 255 < tolerance ->
  process_ai_icon.make_transparent img tolerance st
  = (Ok (length st),
     st ++ [ImageRGBA (im_size im)
              (if decide (tolerance <= 0) then PIL.to_rgba im
               else replicate (length (PIL.to_rgba im)) (255, 255, 255, 0))]).
Proof.
  intros Himg Hvalid%to_rgba_bytes Hedge.
  rewrite (make_transparent_run st img im tolerance Himg). do 4 f_equal.
  apply list_eq. intros i. rewrite list_lookup_fmap.
  destruct (decide (tolerance <= 0)) as [Hlow|Hhigh].
  - destruct (PIL.to_rgba im !! i) as [p|] eqn:Hp; simpl; [|done].
    f_equal. apply whiten_low; [done|].
    by apply (Forall_lookup_1 _ _ _ _ Hvalid) in Hp.
  - destruct (PIL.to_rgba im !! i) as [p|] eqn:Hp; simpl.
    + rewrite lookup_replicate_2 by (by eapply lookup_lt_Some).
      f_equal. apply whiten_high; [lia|].
      by apply (Forall_lookup_1 _ _ _ _ Hvalid) in Hp.
    + symmetry. apply lookup_replicate_None. by apply lookup_ge_None.
Qed.

Lemma make_transparent_edge_tolerance_witness :
  process_ai_icon.make_transparent 0%nat 256
    [ImageRGB (2, 1) [(250, 250, 250); (0, 0, 0)]]
  = (Ok 1%nat,
     [ImageRGB (2, 1) [(250, 250, 250); (0, 0, 0)]]
     ++ [ImageRGBA (2, 1) (replicate 2 (255, 255, 255, 0))]).
Proof.
  apply (make_transparent_edge_tolerance
           [ImageRGB (2, 1) [(250, 250, 250); (0, 0, 0)]] 0%nat
           (ImageRGB (2, 1) [(250, 250, 250); (0, 0, 0)]) 256);
    [reflexivity | reflexivity | lia].
Defined.

(** X11.  A larger tolerance only clears more: a pixel that a run with the
    larger tolerance leaves different from [(255, 255, 255, 0)] is the same
    pixel in the run with the smaller tolerance. *)
Theorem make_transparent_monotone (st : store) img im t t' :
  st !! img = Some im -> t <= t' ->
  exists out out',
    process_ai_icon.make_transparent img t st
    = (Ok (length st), st ++ [ImageRGBA (im_size im) out])
    /\ process_ai_icon.make_transparent img t' st
       = (Ok (length st), st ++ [ImageRGBA (im_size im) out'])
    /\ forall i p, out' !! i = Some p -> p <> (255, 255, 255, 0) -> out !! i = Some p.
Proof.
  intros Himg Ht.
  exists (whiten t <$> PIL.to_rgba im), (whiten t' <$> PIL.to_rgba im).
  split; [by apply make_transparent_run|].
  split; [by apply make_transparent_run|].
  intros i p (q & -> & Hq)%list_lookup_fmap_Some Hp.
  rewrite list_lookup_fmap, Hq. simpl. f_equal. by apply whiten_mono.
Qed.

Lemma make_transparent_monotone_witness :
  exists out out',
    process_ai_icon.make_transparent 0%nat 30
      [ImageRGB (2, 1) [(220, 220, 220); (200, 200, 200)]]
    = (Ok 1%nat,
       [ImageRGB (2, 1) [(220, 220, 220); (200, 200, 200)]] ++ [ImageRGBA (2, 1) out])
    /\ process_ai_icon.make_transparent 0%nat 40
         [ImageRGB (2, 1) [(220, 220, 220); (200, 200, 200)]]
       = (Ok 1%nat,
          [ImageRGB (2, 1) [(220, 220, 220); (200, 200, 200)]] ++ [ImageRGBA (2, 1) out'])
    /\ forall i p, out' !! i = Some p -> p <> (255, 255, 255, 0) -> out !! i = Some p.
Proof.
  apply (make_transparent_monotone
           [ImageRGB (2, 1) [(220, 220, 220); (200, 200, 200)]] 0%nat
           (ImageRGB (2, 1) [(220, 220, 220); (200, 200, 200)]) 30 40);
    [reflexivity | lia].
Defined.

Lemma make_transparent_valid im tolerance :
  valid_image im = true ->
  valid_image (ImageRGBA (im_size im) (whiten tolerance <$> PIL.to_rgba im)) = true.
Proof.
  intros Hvalid. destruct (length_to_rgba im Hvalid) as (Hw & Hh & Hlen).
  pose proof (to_rgba_bytes im Hvalid) as Hbytes.
  simpl. rewrite !andb_true_iff, !Z.leb_le, bool_decide_eq_true, forallb_forall.
  repeat split; [done..|by rewrite length_fmap|].
  intros p (q & -> & Hq)%list_elem_of_In%list_elem_of_fmap.
  apply whiten_bytes. by apply (proj1 (Forall_forall _ _) Hbytes).
Qed.

(** X12.  The preprocessor keeps images well formed: on an 8-bit image of any
    mode it returns an 8-bit RGBA image with one pixel per position. *)
Theorem make_transparent_keeps_valid (st : store) img im tolerance :
  st !! img = Some im -> valid_image im = true ->
  exists st' im',
    process_ai_icon.make_transparent img tolerance st = (Ok (length st), st')
    /\ st' !! length st = Some im'
    /\ im_mode im' = RGBA
    /\ im_size im' = im_size im
    /\ valid_image im' = true.
Proof.
  intros Himg Hvalid.
  eexists _, _. split; [by apply make_transparent_run|].
  split; [by rewrite lookup_app_r, Nat.sub_diag by lia|].
  split; [done|]. split; [done|]. by apply make_transparent_valid.
Qed.

Lemma make_transparent_keeps_valid_witness :
  exists st' im',
    process_ai_icon.make_transparent 0%nat 40 [ImageL (2, 2) [255; 250; 100; 0]]
    = (Ok 1%nat, st')
    /\ st' !! 1%nat = Some im'
    /\ im_mode im' = RGBA
    /\ im_size im' = (2, 2)
    /\ valid_image im' = true.
Proof.
  apply (make_transparent_keeps_valid [ImageL (2, 2) [255; 250; 100; 0]] 0%nat
           (ImageL (2, 2) [255; 250; 100; 0]) 40);
    reflexivity.
Defined.

(** X13.  The pipeline of [process_ai_icon.main], for an image that already
    has the target size: the preprocessor followed by the masker succeeds on
    every square 8-bit image of side [size > 0], whatever its mode; the result
    is a new canvas of that side, and every object that existed before,
    the source image included, stays as it was. *)
Theorem preprocess_then_round `{RR : RoundedRectangle} (st : store) img im size tolerance :
  0 < size -> st !! img = Some im -> valid_image im = true ->
  im_size im = (size, size) ->
  exists st' im',
    (img' ← process_ai_icon.make_transparent img tolerance;
     process_ai_icon.apply_macos_rounding img' size) st = (Ok (length st), st')
    /\ st' !! length st = Some im'
    /\ is_canvas size im' = true
    /\ forall r, (r < length st)%nat -> st' !! r = st !! r.
Proof.
  intros Hsize Himg Hvalid Hsz.
  pose proof (make_transparent_valid im tolerance Hvalid) as Hvalid'.
  rewrite Hsz in Hvalid'.
  apply valid_image_rgba in Hvalid' as (_ & _ & Hlen & Hbytes). simpl in Hlen.
  set (px := whiten tolerance <$> PIL.to_rgba im) in *.
  set (st1 := st ++ [ImageRGBA (size, size) px]).
  assert (st1 !! length st = Some (ImageRGBA (size, size) px)) as Hnew
    by (unfold st1; by rewrite lookup_app_r, Nat.sub_diag by lia).
  assert (length st < length st1)%nat as Hlt by (by eapply lookup_lt_Some).
  exists (rounded st1 (length st) size px),
         (ImageRGBA (size, size) (clipped px (mask_data size))).
  split.
  { erewrite bind_ok; cycle 1.
    { rewrite (make_transparent_run st img im tolerance Himg), Hsz. reflexivity. }
    rewrite apply_macos_rounding_same.
    apply apply_macos_rounding_run; [lia|done..]. }
  split; [by apply rounded_lookup_img|].
  split.
  { apply is_canvas_iff. eexists. split; [done|]. split.
    - rewrite length_clipped; [done|]. rewrite length_mask_data. lia.
    - apply clipped_bytes; [done|apply mask_data_binary]. }
  intros r Hr. rewrite rounded_lookup_other by (unfold st1 in *; lia).
  unfold st1. by rewrite lookup_app_l.
Qed.

Lemma preprocess_then_round_witness :
  exists st' im',
    (img' ← process_ai_icon.make_transparent 0%nat 40;
     process_ai_icon.apply_macos_rounding (RR := spec_rounded_rectangle) img' 5)
      [ImageRGB (5, 5) (replicate 25 (250, 250, 250))] = (Ok 1%nat, st')
    /\ st' !! 1%nat = Some im'
    /\ is_canvas 5 im' = true
    /\ forall r, (r < 1)%nat ->
         st' !! r = [ImageRGB (5, 5) (replicate 25 (250, 250, 250))] !! r.
Proof.
  apply (preprocess_then_round (RR := spec_rounded_rectangle)
           [ImageRGB (5, 5) (replicate 25 (250, 250, 250))] 0%nat
           (ImageRGB (5, 5) (replicate 25 (250, 250, 250))) 5 40);
    [lia | reflexivity | reflexivity | reflexivity].
Defined.

(** ** The renderer: what it draws *)

Lemma clear_or_opaque_inv p :
  clear_or_opaque p = true ->
  byte_rgba p = true /\ (p = (0, 0, 0, 0) \/ p.2 = 255).
Proof.
  unfold clear_or_opaque. rewrite orb_true_iff, andb_true_iff, bool_decide_eq_true.
  intros [-> | [Hb Ha%Z.eqb_eq]]; auto.
Qed.

Lemma keeps_paint (P : Z * Z * Z * Z -> Prop) region ink :
  P ink -> keeps P (fun size => paint size.1 region ink).
Proof.
  intros Hink size d Hd. apply Forall_lookup. intros i p. unfold paint.
  rewrite list_lookup_imap. intros Hp.
  destruct (d !! i) as [q|] eqn:Hq; simplify_eq/=.
  destruct (region _); [done|]. by apply (Forall_lookup_1 _ _ _ _ Hd) in Hq.
Qed.

Section keeping.
Context `{SH : Shapes} (P : Z * Z * Z * Z -> Prop).

Lemma paints_keeping_ellipse r xy fill :
  P fill -> paints_keeping P (ImageDraw.ellipse r xy fill) r.
Proof. intros Hfill. eexists. split; [apply paints_ellipse|by apply keeps_paint]. Qed.

Lemma paints_keeping_polygon r xy fill :
  P fill -> paints_keeping P (ImageDraw.polygon r xy fill) r.
Proof. intros Hfill. eexists. split; [apply paints_polygon|by apply keeps_paint]. Qed.

Lemma paints_keeping_seq c1 c2 r :
  paints_keeping P c1 r -> paints_keeping P c2 r -> paints_keeping P (c1 ;; c2) r.
Proof.
  intros (f1 & Hc1 & Hf1) (f2 & Hc2 & Hf2). eexists. split.
  - by apply paints_seq.
  - intros size d Hd. by apply Hf2, Hf1.
Qed.

Lemma paints_keeping_for {A} (l : list A) body r :
  (forall x, x ∈ l -> paints_keeping P (body x) r) ->
  paints_keeping P (for_ l body) r.
Proof.
  induction l as [|x l IH]; intros Hbody; simpl.
  - eexists. split; [apply paints_skip|]. by intros size d Hd.
  - apply paints_keeping_seq; [apply Hbody; by left|].
    apply IH. intros y Hy. apply Hbody. by right.
Qed.

Lemma renders_keeping_ret r : renders_keeping P (mret r) r.
Proof. eexists. split; [apply renders_ret|]. by intros size d Hd. Qed.

Lemma renders_keeping_seq c1 c2 r :
  paints_keeping P c1 r -> renders_keeping P c2 r -> renders_keeping P (c1 ;; c2) r.
Proof.
  intros (f1 & Hc1 & Hf1) (f2 & Hc2 & Hf2). eexists. split.
  - by apply renders_seq.
  - intros size d Hd. by apply Hf2, Hf1.
Qed.

Lemma renders_keeping_draw (k : ref -> M ref) r :
  renders_keeping P (k r) r -> renders_keeping P (draw ← ImageDraw.Draw r; k draw) r.
Proof. done. Qed.

Lemma new_then_render_keeping (k : ref -> M ref) size c (st : store) :
  renders_keeping P (k (length st)) (length st) -> P c -> 0 <= size ->
  exists px,
    (img ← PIL.new RGBA (size, size) c; k img) st
    = (Ok (length st), st ++ [ImageRGBA (size, size) px])
    /\ length px = Z.to_nat (size * size)
    /\ Forall P px.
Proof.
  intros (f & [Hlen Hrun] & Hf) Hc Hsize.
  exists (f (size, size) (replicate (Z.to_nat (size * size)) c)).
  split; [|split].
  - erewrite bind_ok by (by apply new_ok). simpl.
    erewrite Hrun by (by rewrite lookup_app_r, Nat.sub_diag by lia).
    by rewrite insert_app_r_alt, Nat.sub_diag by lia.
  - by rewrite Hlen, length_replicate.
  - apply Hf. by apply Forall_replicate.
Qed.
End keeping.

Lemma stamps_clear_or_opaque :
  (forall angle, angle ∈ generate_icon.green_angles ->
     clear_or_opaque (generate_icon.green_fill (generate_icon.green_t angle)) = true)
  /\ (forall angle, angle ∈ generate_icon.blue_angles ->
        clear_or_opaque (generate_icon.blue_fill (generate_icon.blue_t angle)) = true).
Proof.
  split; intros angle Hin%list_elem_of_In; revert angle Hin; apply forallb_forall;
    vm_compute; reflexivity.
Qed.

Section renderer.
Context `{SH : Shapes} `{LM : Libm}.

(** Every pixel of the rendered icon is blank or opaque. *)
Lemma create_icon_pixels size (st : store) :
  0 <= size ->
  exists px,
    generate_icon.create_icon size st
    = (Ok (length st), st ++ [ImageRGBA (size, size) px])
    /\ length px = Z.to_nat (size * size)
    /\ Forall (fun p => clear_or_opaque p = true) px.
Proof.
  intros Hsize. unfold generate_icon.create_icon. cbv zeta.
  destruct stamps_clear_or_opaque as [Hgreen Hblue].
  apply new_then_render_keeping; [|done..].
  apply renders_keeping_draw.
  repeat (apply renders_keeping_seq;
          [first [ by apply paints_keeping_ellipse
                 | by apply paints_keeping_polygon
                 | apply paints_keeping_for; intros angle Hangle;
                   apply paints_keeping_ellipse; auto ]|]).
  apply renders_keeping_ret.
Qed.
End renderer.

(** X14.  The renderer returns a well-formed canvas without partial
    transparency: for every size that is not negative the result is a square
    8-bit RGBA canvas of that side in which every pixel is either the blank
    [(0, 0, 0, 0)] or fully opaque. *)
Theorem create_icon_canvas `{SH : Shapes} `{LM : Libm} size (st : store) :
  0 <= size ->
  exists px,
    generate_icon.create_icon size st
    = (Ok (length st), st ++ [ImageRGBA (size, size) px])
    /\ is_canvas size (ImageRGBA (size, size) px) = true
    /\ Forall (fun p => p = (0, 0, 0, 0) \/ p.2 = 255) px.
Proof.
  intros Hsize.
  destruct (create_icon_pixels size st Hsize) as (px & Hrun & Hlen & Hpx).
  exists px. split; [done|]. split.
  - apply is_canvas_iff. exists px. split; [done|]. split; [done|].
    eapply Forall_impl; [exact Hpx|]. by intros p [? _]%clear_or_opaque_inv.
  - eapply Forall_impl; [exact Hpx|]. by intros p [_ ?]%clear_or_opaque_inv.
Qed.

Lemma create_icon_canvas_witness :
  exists px,
    generate_icon.create_icon (SH := box_shapes) (LM := flat_libm) 16 []
    = (Ok 0%nat, [] ++ [ImageRGBA (16, 16) px])
    /\ is_canvas 16 (ImageRGBA (16, 16) px) = true
    /\ Forall (fun p => p = (0, 0, 0, 0) \/ p.2 = 255) px.
Proof.
  apply (create_icon_canvas (SH := box_shapes) (LM := flat_libm) 16 []). lia.
Defined.

(** X15.  The pipeline of [generate_icon.main]: rendering and then masking at
    the same positive size always succeeds; the master icon is a new canvas of
    that side in which every alpha is 0 or 255, and every object that existed
    before stays as it was. *)
Theorem render_then_round `{RR : RoundedRectangle} `{SH : Shapes} `{LM : Libm}
    size (st : store) :
  0 < size ->
  exists st' px,
    (master ← generate_icon.create_icon size;
     generate_icon.apply_macos_rounding master size) st = (Ok (length st), st')
    /\ st' !! length st = Some (ImageRGBA (size, size) px)
    /\ is_canvas size (ImageRGBA (size, size) px) = true
    /\ Forall (fun p => p.2 = 0 \/ p.2 = 255) px
    /\ forall r, (r < length st)%nat -> st' !! r = st !! r.
Proof.
  intros Hsize.
  destruct (create_icon_pixels size st ltac:(lia)) as (px & Hrun & Hlen & Hpx).
  set (st1 := st ++ [ImageRGBA (size, size) px]).
  assert (st1 !! length st = Some (ImageRGBA (size, size) px)) as Hnew
    by (unfold st1; by rewrite lookup_app_r, Nat.sub_diag by lia).
  assert (length st < length st1)%nat as Hlt by (by eapply lookup_lt_Some).
  assert (Forall (fun p => byte_rgba p = true) px) as Hbytes.
  { eapply Forall_impl; [exact Hpx|]. by intros p [? _]%clear_or_opaque_inv. }
  exists (rounded st1 (length st) size px), (clipped px (mask_data size)).
  split.
  { erewrite bind_ok by exact Hrun.
    apply apply_macos_rounding_run; [lia|done..]. }
  split; [by apply rounded_lookup_img|].
  split.
  { apply is_canvas_iff. eexists. split; [done|]. split.
    - rewrite length_clipped; [done|]. rewrite length_mask_data. lia.
    - apply clipped_bytes; [done|apply mask_data_binary]. }
  split.
  { apply Forall_lookup. intros i [c a'] Hi. unfold clipped in Hi.
    apply lookup_zip_with_Some in Hi as (c' & a2 & [= -> ->] & _ & Ha2).
    apply lookup_zip_with_Some in Ha2 as (a & m & -> & Ha & Hm).
    apply list_lookup_fmap_Some in Ha as (p & -> & Hp).
    apply (Forall_lookup_1 _ _ _ _ Hpx), clear_or_opaque_inv in Hp as [_ Hp].
    apply (Forall_lookup_1 _ _ _ _ (mask_data_binary size)) in Hm.
    simpl. destruct Hp as [-> | ->], Hm as [-> | ->]; simpl; lia. }
  intros r Hr. rewrite rounded_lookup_other by (unfold st1 in *; lia).
  unfold st1. by rewrite lookup_app_l.
Qed.

Lemma render_then_round_witness :
  exists st' px,
    (master ← generate_icon.create_icon (SH := box_shapes) (LM := flat_libm) 16;
     generate_icon.apply_macos_rounding (RR := spec_rounded_rectangle) master 16)
      example_store = (Ok 1%nat, st')
    /\ st' !! 1%nat = Some (ImageRGBA (16, 16) px)
    /\ is_canvas 16 (ImageRGBA (16, 16) px) = true
    /\ Forall (fun p => p.2 = 0 \/ p.2 = 255) px
    /\ forall r, (r < 1)%nat -> st' !! r = example_store !! r.
Proof.
  apply (render_then_round (RR := spec_rounded_rectangle) (SH := box_shapes)
           (LM := flat_libm) 16 example_store).
  lia.
Defined.

(** X16.  Both gradients are smooth in the integers that are drawn: from any
    stamp to the next, no colour channel rises and none falls by more than
    one, and every stamp is opaque. *)
Theorem gradient_steps k :
  0 <= k < 99 ->
  gentle_step (generate_icon.green_fill (generate_icon.green_t (-70 + k)))
              (generate_icon.green_fill (generate_icon.green_t (-70 + k + 1))) = true
  /\ gentle_step (generate_icon.blue_fill (generate_icon.blue_t (110 + k)))
                 (generate_icon.blue_fill (generate_icon.blue_t (110 + k + 1))) = true.
Proof.
  intros Hk.
  assert (forallb (fun k =>
            gentle_step (generate_icon.green_fill (generate_icon.green_t (-70 + k)))
              (generate_icon.green_fill (generate_icon.green_t (-70 + k + 1)))
            && gentle_step (generate_icon.blue_fill (generate_icon.blue_t (110 + k)))
                 (generate_icon.blue_fill (generate_icon.blue_t (110 + k + 1))))
            (seqZ 0 99) = true) as Hall by (vm_compute; reflexivity).
  rewrite forallb_forall in Hall.
  apply andb_true_iff, Hall, list_elem_of_In, elem_of_seqZ. lia.
Qed.

Lemma gradient_steps_witness :
  gentle_step (generate_icon.green_fill (generate_icon.green_t (-70 + 50)))
              (generate_icon.green_fill (generate_icon.green_t (-70 + 50 + 1))) = true
  /\ gentle_step (generate_icon.blue_fill (generate_icon.blue_t (110 + 50)))
                 (generate_icon.blue_fill (generate_icon.blue_t (110 + 50 + 1))) = true.
Proof. apply (gradient_steps 50). lia. Defined.
